(** * Line.tsx: smooth curves through waypoints, and the frame loop driving them

    A shallow embedding of [src/compunent/Line.tsx].

    - JavaScript numbers are kept behind the interface [JSNumber], so that the
      code is translated once.  Two instances are given: [f64], IEEE 754
      binary64 as specified by the Standard Library's [SpecFloat] (what a
      JavaScript engine computes, NaN and signed zeros included), and [R],
      exact real arithmetic, used for the geometric statements that hold only
      up to rounding on [f64].
    - The 2D context is write-only for this code: a call is modelled by the
      list of context operations it issues together with its outcome (normal
      return or a thrown [TypeError]).
    - The host frame clock is a small state machine: a queue of requested
      animation frames, their handles, and the events mount, frame, unmount. *)

From Stdlib Require Import ZArith List Bool Lia Reals Lra Sorted SpecFloat.
From stdpp Require Import base decidable option list.

Set Default Proof Using "Type".

(** ** JavaScript numbers *)

Class JSNumber (num : Type) : Type := {
  num_add : num -> num -> num;
  num_sub : num -> num -> num;
  num_mul : num -> num -> num;
  num_div : num -> num -> num;
  num_sqrt : num -> num;          (* Math.sqrt *)
  num_truthy : num -> bool;       (* ToBoolean, as used by [||] *)
  num_of_Z : Z -> num;            (* integer literals and loop counters *)
  num_quarter : num               (* the literal 0.25 *)
}.

Declare Scope num_scope.
Delimit Scope num_scope with num.
Infix "+" := num_add : num_scope.
Infix "-" := num_sub : num_scope.
Infix "*" := num_mul : num_scope.
Infix "/" := num_div : num_scope.

(** *** IEEE 754 binary64 *)

Module F64.

Definition prec : Z := 53.
Definition emax : Z := 1024.

Definition f64 : Type := spec_float.

Definition add : f64 -> f64 -> f64 := SFadd prec emax.
Definition sub : f64 -> f64 -> f64 := SFsub prec emax.
Definition mul : f64 -> f64 -> f64 := SFmul prec emax.
Definition div : f64 -> f64 -> f64 := SFdiv prec emax.
Definition sqrt : f64 -> f64 := SFsqrt prec emax.

(** [m * 2^e], rounded to nearest even. *)
Definition lit (m e : Z) : f64 := binary_normalize prec emax m e false.

Definition of_Z (z : Z) : f64 := lit z 0.

Definition nan : f64 := S754_nan.

(** ToBoolean on a number: [+0], [-0] and [NaN] are falsy. *)
Definition truthy (x : f64) : bool :=
  match x with
  | S754_zero _ | S754_nan => false
  | S754_infinity _ | S754_finite _ _ _ => true
  end.

(** [==] on numbers. *)
Definition eqb : f64 -> f64 -> bool := SFeqb.

(** Neither an infinity nor NaN. *)
Definition finite (x : f64) : bool :=
  match x with
  | S754_zero _ | S754_finite _ _ _ => true
  | S754_infinity _ | S754_nan => false
  end.

(** Two numbers that coincide: the same value, or equal under [==]
    (which identifies [+0] and [-0]). *)
Definition same_number (x y : f64) : Prop := x = y \/ eqb x y = true.

(** Two points with coinciding coordinates. *)
Definition coincide (p q : f64 * f64) : Prop :=
  same_number p.1 q.1 /\ same_number p.2 q.2.

End F64.

#[export] Instance f64_number : JSNumber F64.f64 := {|
  num_add := F64.add;
  num_sub := F64.sub;
  num_mul := F64.mul;
  num_div := F64.div;
  num_sqrt := F64.sqrt;
  num_truthy := F64.truthy;
  num_of_Z := F64.of_Z;
  num_quarter := F64.lit 1 (-2)
|}.

(** *** Exact reals *)

Definition R_truthy (x : R) : bool := if Req_dec_T x 0 then false else true.

#[export] Instance R_number : JSNumber R := {|
  num_add := Rplus;
  num_sub := Rminus;
  num_mul := Rmult;
  num_div := Rdiv;
  num_sqrt := sqrt;
  num_truthy := R_truthy;
  num_of_Z := IZR;
  num_quarter := (/ 4)%R
|}.

(** ** The 2D context and the outcome of a call *)

Inductive js_error : Type := TypeError.

Inductive outcome (A : Type) : Type :=
| Returned (a : A)
| Thrown (e : js_error).
Arguments Returned {A} a.
Arguments Thrown {A} e.

Section Canvas.
Context {num : Type} `{JSNumber num}.

(** Operations on [CanvasRenderingContext2D] used by the file. *)
Inductive Cmd : Type :=
| BeginPath
| MoveTo (x y : num)
| LineTo (x y : num)
| BezierCurveTo (cp1x cp1y cp2x cp2y x y : num)
| Stroke
| ClearRect (x y w h : num)
| SetStrokeStyle (r g b : num)     (* strokeStyle = `rgb(r, g, b)` *)
| Reset.

(** Operations issued so far, and how the call ended. *)
Definition Canvas (A : Type) : Type := list Cmd * outcome A.

Definition ret {A} (a : A) : Canvas A := ([], Returned a).

Definition throw {A} (e : js_error) : Canvas A := ([], Thrown e).

Definition bind {A B} (m : Canvas A) (k : A -> Canvas B) : Canvas B :=
  match m with
  | (w, Returned a) => let (w', r) := k a in (w ++ w', r)
  | (w, Thrown e) => (w, Thrown e)
  end.

Definition emit (c : Cmd) : Canvas unit := ([c], Returned tt).

End Canvas.

Arguments Cmd num : clear implicits.
Arguments Canvas num A : clear implicits.

Declare Scope canvas_scope.
Delimit Scope canvas_scope with canvas.
Notation "x <- m ;; k" := (bind m (fun x => k))
  (at level 100, m at next level, right associativity) : canvas_scope.
Notation "m ;;; k" := (bind m (fun _ => k))
  (at level 100, right associativity) : canvas_scope.

Section Bezier.
Context {num : Type} `{JSNumber num}.
Local Open Scope canvas_scope.
Local Open Scope num_scope.

Definition point : Type := num * num.

(** An element of [cpoints]: an object with optional [cp] and [cn]. *)
Record cobj : Type := { cp : option point; cn : option point }.

Definition empty_cobj : cobj := {| cp := None; cn := None |}.

(** [a[i]] followed by a property read: reading a property of [undefined]
    throws. *)
Definition index {A} (a : list A) (i : nat) : Canvas num A :=
  match a !! i with
  | Some x => ret x
  | None => throw TypeError
  end.

(** Arrays of objects may have holes ([undefined]). *)
Definition elem {A} (a : list (option A)) (i : nat) : Canvas num A :=
  match a !! i with
  | Some (Some x) => ret x
  | _ => throw TypeError
  end.

Definition prop {A} (f : option A) : Canvas num A :=
  match f with
  | Some x => ret x
  | None => throw TypeError
  end.

(** [a[i] = v]: in place below [a.length]; beyond it the array grows and the
    skipped positions are holes. *)
Definition array_set {A} (i : nat) (v : A) (a : list (option A))
  : list (option A) :=
  if decide (i < length a)%nat then <[i := Some v]> a
  else a ++ replicate (i - length a) None ++ [Some v].

Fixpoint for_each {S} (idx : list nat) (s : S)
    (body : nat -> S -> Canvas num S) : Canvas num S :=
  match idx with
  | [] => ret s
  | i :: idx' => s' <- body i s ;; for_each idx' s' body
  end.

(** [for (i = lo; i < hi; i++)] threading the variables the body assigns. *)
Definition for_range {S} (lo hi : nat) : S -> (nat -> S -> Canvas num S) -> Canvas num S :=
  for_each (seq lo (hi - lo)).

(** [tension || 0.25] *)
Definition default_tension (tension : num) : num :=
  if num_truthy tension then tension else num_quarter.

(** Helper function to calculate the hypotenuse. *)
Definition h (x y : num) : num := num_sqrt (x * x + y * y).

(** The normalized tangent slope vector [(dx, dy)] at an interior point. *)
Definition tangent (pp pn : point) : point :=
  let rdx := pn.1 - pp.1 in
  let rdy := pn.2 - pp.2 in
  let rd := h rdx rdy in
  (rdx / rd, rdy / rd).

(** Body of the first loop: the two control points of an interior point. *)
Definition interior_cpoints (pp pi pn : point) (tension : num) : cobj :=
  let '(dx, dy) := tangent pp pn in
  let dp := h (pi.1 - pp.1) (pi.2 - pp.2) in
  let dn := h (pi.1 - pn.1) (pi.2 - pn.2) in
  let cpx := pi.1 - dx * dp * tension in
  let cpy := pi.2 - dy * dp * tension in
  let cnx := pi.1 + dx * dn * tension in
  let cny := pi.2 + dy * dn * tension in
  {| cp := Some (cpx, cpy); cn := Some (cnx, cny) |}.

(** Body of the first loop, as a state update on [cpoints]. *)
Definition interior_step (points : list point) (tension : num)
    (i : nat) (cpoints : list (option cobj)) : Canvas num (list (option cobj)) :=
  pi <- index points i ;;
  pp <- index points (i - 1) ;;
  pn <- index points (i + 1) ;;
  ret (array_set i (interior_cpoints pp pi pn tension) cpoints).

(** Lines 37-95: the array [cpoints], for [l >= 3]. *)
Definition control_points (points : list point) (tension : num)
  : Canvas num (list (option cobj)) :=
  let l := length points in
  let cpoints := (fun _ => Some empty_cobj) <$> points in
  cpoints <- for_range 1 (l - 1) cpoints (interior_step points tension) ;;
  p0 <- index points 0 ;;
  c1 <- elem cpoints 1 ;;
  c1cp <- prop (cp c1) ;;
  let cpoints := array_set 0
    {| cp := None;
       cn := Some ((p0.1 + c1cp.1) / num_of_Z 2, (p0.2 + c1cp.2) / num_of_Z 2) |}
    cpoints in
  pl <- index points (l - 1) ;;
  c2 <- elem cpoints (l - 2) ;;
  c2cn <- prop (cn c2) ;;
  let cpoints := array_set (l - 1)
    {| cp := Some ((pl.1 + c2cn.1) / num_of_Z 2, (pl.2 + c2cn.2) / num_of_Z 2);
       cn := None |}
    cpoints in
  ret cpoints.

(** One iteration of the second loop. *)
Definition curve_step (points : list point) (cpoints : list (option cobj))
    (i : nat) (_ : unit) : Canvas num unit :=
  p <- index points i ;;
  c <- elem cpoints i ;;
  cpp <- elem cpoints (i - 1) ;;
  a <- prop (cn cpp) ;;
  b <- prop (cp c) ;;
  emit (BezierCurveTo a.1 a.2 b.1 b.2 p.1 p.2).

(** Lines 99-111: the path through the points. *)
Definition draw_curves (points : list point) (cpoints : list (option cobj))
  : Canvas num unit :=
  let l := length points in
  p0 <- index points 0 ;;
  emit (MoveTo p0.1 p0.2) ;;;
  for_range 1 l tt (curve_step points cpoints) ;;;
  emit Stroke.

Definition bezierCurveThrough (points : list point) (tension : num)
  : Canvas num unit :=
  let tension := default_tension tension in
  let l := length points in
  if decide (l < 2)%nat then ret tt
  else
    emit BeginPath ;;;
    if decide (l = 2)%nat then
      p0 <- index points 0 ;;
      emit (MoveTo p0.1 p0.2) ;;;
      p1 <- index points 1 ;;
      emit (LineTo p1.1 p1.2) ;;;
      emit Stroke
    else
      cpoints <- control_points points tension ;;
      draw_curves points cpoints.

(** *** Notions used to state the properties *)

(** The midpoint of two points. *)
Definition midpoint (p q : point) : point :=
  ((p.1 + q.1) / num_of_Z 2, (p.2 + q.2) / num_of_Z 2).

(** The element the first loop stores at an interior index [j]. *)
Definition interior_at (points : list point) (tension : num) (j : nat) : cobj :=
  match points !! (j - 1)%nat, points !! j, points !! (j + 1)%nat with
  | Some pp, Some pi, Some pn => interior_cpoints pp pi pn tension
  | _, _, _ => empty_cobj
  end.

(** [cpoints] once the first loop has handled the indices [1..n]. *)
Definition cpoints_after (points : list point) (tension : num) (n : nat)
  : list (option cobj) :=
  imap (fun j _ =>
          Some (if decide (1 <= j <= n)%nat then interior_at points tension j
                else empty_cobj)) points.

(** Segment [i] joins point [i] to point [i + 1]: it leaves along the
    outgoing control point of the former and arrives along the incoming
    control point of the latter. *)
Definition segment_of (points : list point) (cpoints : list (option cobj))
    (i : nat) (c : Cmd num) : Prop :=
  exists (p : point) (c0 c1 : cobj) (a b : point),
    points !! (i + 1)%nat = Some p
    /\ cpoints !! i = Some (Some c0) /\ cn c0 = Some a
    /\ cpoints !! (i + 1)%nat = Some (Some c1) /\ cp c1 = Some b
    /\ c = BezierCurveTo a.1 a.2 b.1 b.2 p.1 p.2.


(** The operations that build or stroke a path; the others clear the
    canvas, change the stroke style or reset the context. *)
Definition is_path_op (c : Cmd num) : bool :=
  match c with
  | BeginPath | MoveTo _ _ | LineTo _ _ | BezierCurveTo _ _ _ _ _ _ | Stroke => true
  | ClearRect _ _ _ _ | SetStrokeStyle _ _ _ | Reset => false
  end.

(** Where a path operation ends, if it moves the pen. *)
Definition endpoint (c : Cmd num) : option point :=
  match c with
  | MoveTo x y | LineTo x y | BezierCurveTo _ _ _ _ x y => Some (x, y)
  | _ => None
  end.

End Bezier.

(** ** The animation driver *)

Section Driver.
Context {num : Type} `{JSNumber num}.
Local Open Scope canvas_scope.
Local Open Scope num_scope.

(** [Math.sin], [Math.round] and [Math.PI] of the host. *)
Variable Math_sin : num -> num.
Variable Math_round : num -> num.
Variable Math_PI : num.

(** [canvas.width] and [canvas.height]. *)
Variable canvas_width canvas_height : num.

Local Notation "# z" := (num_of_Z z) (at level 1, z at level 0, only parsing).

(** [startColor] and [endColor]: array literals of three numbers, only read
    at the constant indices 0, 1 and 2. *)
Definition startColor : num * num * num := (#38, #69, #187).
Definition endColor : num * num * num := (#238, #0, #53).

(** One color channel of curve [i], from the two channel values [s], [e]. *)
Definition channel (s e : num) (i : num) : num :=
  Math_round (s + (e - s) * (i / #70)).

(** [k] of the frame whose elapsed time is [elapsed]. *)
Definition sway (elapsed : num) : num :=
  let progress := elapsed / #5000 in
  Math_sin (progress * Math_PI * #2) * #40.

(** The array literal passed to [bezierCurveThrough] for curve [i]. *)
Definition curve_points (k i : num) : list point :=
  [ (#0, #0 + i * #4);
    (#230 + k, #100 + i * #9 + k);
    (#500 + k, #300 + i * #9 + k);
    (#800, #300 + i * #8) ].

(** What one call of [renderCurves] does to the context, up to the request
    for the next frame. *)
Definition draw_frame (elapsed : num) : Canvas num unit :=
  emit (ClearRect #0 #0 canvas_width canvas_height) ;;;
  let k := sway elapsed in
  for_range 0 70 tt (fun i _ =>
    let i := num_of_Z (Z.of_nat i) in
    let r := channel startColor.1.1 endColor.1.1 i in
    let g := channel startColor.1.2 endColor.1.2 i in
    let b := channel startColor.2 endColor.2 i in
    emit (SetStrokeStyle r g b) ;;;
    bezierCurveThrough (curve_points k i) num_quarter).

(** *** The host: closure variables, frame requests, the context *)

Definition handle : Type := nat.

Record host : Type := {
  startFrame : option num;       (* [let startFrame: number], unset at first *)
  lastFrame : option handle;     (* [let lastFrame: number], unset at first *)
  requests : list handle;        (* pending animation frame callbacks *)
  next_handle : handle;          (* the window's handle counter *)
  surface : list (Cmd num)       (* every operation applied to the context *)
}.

Definition fresh_host : host :=
  {| startFrame := None; lastFrame := None; requests := [];
     next_handle := 1; surface := [] |}.

(** [startFrame] once [startFrame ??= timeStamp] has run. *)
Definition start_of (st : host) (timeStamp : num) : num :=
  match startFrame st with
  | Some s => s
  | None => timeStamp
  end.

Definition elapsed_of (st : host) (timeStamp : num) : num :=
  timeStamp - start_of st timeStamp.

(** [lastFrame = window.requestAnimationFrame(renderCurves)] *)
Definition requestAnimationFrame (st : host) : host :=
  let id := next_handle st in
  {| startFrame := startFrame st;
     lastFrame := Some id;
     requests := requests st ++ [id];
     next_handle := S id;
     surface := surface st |}.

(** [window.cancelAnimationFrame(id)]; an unset [id] names no request. *)
Definition cancelAnimationFrame (st : host) (id : option handle) : host :=
  {| startFrame := startFrame st;
     lastFrame := lastFrame st;
     requests :=
       match id with
       | Some n => filter (fun r => r <> n) (requests st)
       | None => requests st
       end;
     next_handle := next_handle st;
     surface := surface st |}.

Definition renderCurves (st : host) (timeStamp : num) : host :=
  let s := start_of st timeStamp in
  let '(cmds, r) := draw_frame (elapsed_of st timeStamp) in
  let st' :=
    {| startFrame := Some s;
       lastFrame := lastFrame st;
       requests := requests st;
       next_handle := next_handle st;
       surface := surface st ++ cmds |} in
  match r with
  | Returned _ => requestAnimationFrame st'
  | Thrown _ => st'
  end.

(** The effect body: [renderCurves(performance.now())]. *)
Definition mount (now : num) : host := renderCurves fresh_host now.

(** The host runs the animation frame callbacks: the pending ones are taken
    off the list, then each is called with the frame's timestamp. *)
Definition animation_frame (st : host) (now : num) : host :=
  let callbacks := requests st in
  let st0 :=
    {| startFrame := startFrame st;
       lastFrame := lastFrame st;
       requests := [];
       next_handle := next_handle st;
       surface := surface st |} in
  foldl (fun st' _ => renderCurves st' now) st0 callbacks.

(** The function returned by the effect, run when the component unmounts. *)
Definition cleanup (st : host) : host :=
  let st1 := cancelAnimationFrame st (lastFrame st) in
  {| startFrame := startFrame st1;
     lastFrame := lastFrame st1;
     requests := requests st1;
     next_handle := next_handle st1;
     surface := surface st1 ++ [Reset] |}.

Definition frames (st : host) (stamps : list num) : host :=
  foldl animation_frame st stamps.

(** The elapsed times computed by the ticks of successive frames. *)
Fixpoint elapsed_seq (st : host) (stamps : list num) : list num :=
  match stamps with
  | [] => []
  | t :: stamps' => elapsed_of st t :: elapsed_seq (animation_frame st t) stamps'
  end.

(** *** Notions used to state the properties *)

(** The stroke style of curve [n], with the channels written out. *)
Definition style_of (n : num) : Cmd num :=
  SetStrokeStyle (Math_round (#38 + (#238 - #38) * (n / #70)))
                 (Math_round (#69 + (#0 - #69) * (n / #70)))
                 (Math_round (#187 + (#53 - #187) * (n / #70))).

(** Exactly one request is pending, and [lastFrame] is its handle. *)
Definition armed (st : host) : Prop :=
  exists id, lastFrame st = Some id /\ requests st = [id].

(** Elapsed times of a run: the tick of the effect, then one per frame. *)
Definition elapsed_run (now : num) (stamps : list num) : list num :=
  elapsed_of fresh_host now :: elapsed_seq (mount now) stamps.

End Driver.

(** [Math.round] on exact reals: the nearest integer, ties upwards. *)
Definition R_round (x : R) : R := IZR (Int_part (x + / 2)).

(** ** Plane geometry over the reals, to state the properties *)

(** The vector from [p] to [q]. *)
Definition vec (p q : R * R) : R * R := (q.1 - p.1, q.2 - p.2)%R.

(** Euclidean length of a vector. *)
Definition norm (v : R * R) : R := sqrt (v.1 * v.1 + v.2 * v.2).

(** The vector scaled to length one. *)
Definition normalized (v : R * R) : R * R := (v.1 / norm v, v.2 / norm v)%R.

(** Euclidean distance between two points. *)
Definition dist (p q : R * R) : R :=
  sqrt ((p.1 - q.1) * (p.1 - q.1) + (p.2 - q.2) * (p.2 - q.2)).

(** The point at parameter [s] on the line through [p] with direction [d]. *)
Definition along (p d : R * R) (s : R) : R * R :=
  (p.1 + s * d.1, p.2 + s * d.2)%R.

(** A direct similarity of the plane: the rotation and uniform scaling
    given by [(a, b)], then the translation by [v]. *)
Definition similarity (a b : R) (v : R * R) (p : @point R) : @point R :=
  (a * p.1 - b * p.2 + v.1, b * p.1 + a * p.2 + v.2)%R.

(** A map of the plane applied to the control points of an object and to the
    coordinates of an operation. *)
Definition map_cobj (f : @point R -> @point R) (c : @cobj R) : @cobj R :=
  {| cp := f <$> cp c; cn := f <$> cn c |}.

Definition map_cmd (f : @point R -> @point R) (c : Cmd R) : Cmd R :=
  match c with
  | MoveTo x y => MoveTo (f (x, y)).1 (f (x, y)).2
  | LineTo x y => LineTo (f (x, y)).1 (f (x, y)).2
  | BezierCurveTo x1 y1 x2 y2 x y =>
      BezierCurveTo (f (x1, y1)).1 (f (x1, y1)).2 (f (x2, y2)).1 (f (x2, y2)).2
                    (f (x, y)).1 (f (x, y)).2
  | _ => c
  end.

(** An object of [cpoints] with its two control points exchanged. *)
Definition swap_cobj (c : @cobj R) : @cobj R := {| cp := cn c; cn := cp c |}.

(** [p] is on the line through [o] with direction [u]. *)
Definition on_line (o u : R * R) (p : @point R) : Prop :=
  exists s : R, p = along o u s.

(** Every point an operation names is on the line. *)
Definition cmd_on_line (o u : R * R) (c : Cmd R) : Prop :=
  match c with
  | MoveTo x y | LineTo x y => on_line o u (x, y)
  | BezierCurveTo x1 y1 x2 y2 x y =>
      on_line o u (x1, y1) /\ on_line o u (x2, y2) /\ on_line o u (x, y)
  | _ => True
  end.

(** * Properties *)

(** ** The call monad *)

Section CanvasFacts.
Context {num : Type} `{JSNumber num}.
Local Open Scope canvas_scope.

Lemma bind_ret {A B} (a : A) (k : A -> Canvas num B) : bind (ret a) k = k a.
Proof. unfold bind, ret. destruct (k a) as [w r]. reflexivity. Qed.

Lemma bind_done {A B} (a : A) (k : A -> Canvas num B) :
  bind ([], Returned a) k = k a.
Proof. exact (bind_ret a k). Qed.

Lemma bind_throw {A B} (e : js_error) (k : A -> Canvas num B) :
  bind (throw e) k = throw e.
Proof. reflexivity. Qed.

Lemma bind_emit {B} (c : Cmd num) (k : unit -> Canvas num B) :
  bind (emit c) k = (c :: (k tt).1, (k tt).2).
Proof. unfold bind, emit. destruct (k tt) as [w r]. reflexivity. Qed.

Lemma bind_returned {A B} (w : list (Cmd num)) (a : A) (k : A -> Canvas num B) :
  bind (w, Returned a) k = (w ++ (k a).1, (k a).2).
Proof. unfold bind. destruct (k a) as [w' r]. reflexivity. Qed.

Lemma index_lookup {A} (a : list A) (i : nat) (x : A) :
  a !! i = Some x -> index (num := num) a i = ret x.
Proof. unfold index. intros ->. reflexivity. Qed.

Lemma elem_lookup {A} (a : list (option A)) (i : nat) (x : A) :
  a !! i = Some (Some x) -> elem (num := num) a i = ret x.
Proof. unfold elem. intros ->. reflexivity. Qed.

Lemma for_each_app {S} (xs ys : list nat) (s : S) (body : nat -> S -> Canvas num S) :
  for_each (xs ++ ys) s body = (s' <- for_each xs s body ;; for_each ys s' body).
Proof.
  revert s. induction xs as [|x xs IH]; intros s.
  - symmetry. exact (bind_ret s (fun s' => for_each ys s' body)).
  - cbn [app for_each].
    destruct (body x s) as [w [s'|e]]; [|reflexivity].
    rewrite !bind_returned, IH.
    destruct (for_each xs s' body) as [w1 [s1|e1]]; [|reflexivity].
    rewrite !bind_returned. cbn [fst snd]. rewrite bind_returned.
    now rewrite app_assoc.
Qed.

End CanvasFacts.

(** ** Short inputs *)

Section Short.
Context {num : Type} `{JSNumber num}.

(** C4. Nothing is issued for zero or one point, and the call returns
    normally; for exactly two points the operations are [beginPath],
    [moveTo] the first, [lineTo] the second, [stroke], with no curve. *)
Theorem short_inputs (tension : num) :
  bezierCurveThrough [] tension = ([], Returned tt)
  /\ (forall p : point, bezierCurveThrough [p] tension = ([], Returned tt))
  /\ (forall p q : point,
        bezierCurveThrough [p; q] tension
        = ([BeginPath; MoveTo p.1 p.2; LineTo q.1 q.2; Stroke], Returned tt)).
Proof. repeat split. Qed.

(** C10. With fewer than three points the tension argument has no influence
    on what is issued. *)
Theorem tension_irrelevant_below_three (points : list point) (t1 t2 : num) :
  length points < 3 ->
  bezierCurveThrough points t1 = bezierCurveThrough points t2.
Proof.
  intros Hl.
  destruct points as [|p [|q [|r rest]]]; simpl in Hl; try lia; reflexivity.
Qed.

End Short.

(** ** Three points or more: the control points *)

Section ControlPoints.
Context {num : Type} `{JSNumber num}.
Local Open Scope canvas_scope.

Implicit Types (points : list (@point num)) (cps : list (option (@cobj num))).

Lemma array_set_lt {A} (i : nat) (v : A) (a : list (option A)) :
  i < length a -> array_set i v a = <[i := Some v]> a.
Proof. intros Hi. unfold array_set. now rewrite decide_True. Qed.

Lemma length_cpoints_after points t n :
  length (cpoints_after points t n) = length points.
Proof. unfold cpoints_after. apply length_imap. Qed.

Lemma lookup_cpoints_after points t n j :
  j < length points ->
  cpoints_after points t n !! j
  = Some (Some (if decide (1 <= j <= n) then interior_at points t j
                else empty_cobj)).
Proof.
  intros Hj. unfold cpoints_after. rewrite list_lookup_imap.
  destruct (lookup_lt_is_Some_2 points j Hj) as [p ->]. reflexivity.
Qed.

Lemma cpoints_after_0 points t :
  cpoints_after points t 0 = (fun _ => Some empty_cobj) <$> points.
Proof.
  apply list_eq. intros j. unfold cpoints_after.
  rewrite list_lookup_imap, list_lookup_fmap.
  destruct (points !! j); [simpl|reflexivity].
  rewrite decide_False by lia. reflexivity.
Qed.

Lemma cpoints_after_S points t n :
  S n < length points ->
  array_set (S n) (interior_at points t (S n)) (cpoints_after points t n)
  = cpoints_after points t (S n).
Proof.
  intros Hn. rewrite array_set_lt by (rewrite length_cpoints_after; lia).
  apply list_eq. intros j.
  destruct (decide (j < length points)) as [Hj|Hj].
  - destruct (decide (j = S n)) as [->|Hne].
    + rewrite list_lookup_insert_eq by (rewrite length_cpoints_after; lia).
      rewrite lookup_cpoints_after by lia. now rewrite decide_True by lia.
    + rewrite list_lookup_insert_ne by lia.
      rewrite !lookup_cpoints_after by lia.
      destruct (decide (1 <= j <= n)), (decide (1 <= j <= S n)); try lia; reflexivity.
  - rewrite !(proj2 (lookup_ge_None _ _)); trivial;
      rewrite ?length_insert, length_cpoints_after; lia.
Qed.

Lemma interior_step_at points t i cps :
  1 <= i -> i + 1 < length points ->
  interior_step points t i cps = ret (array_set i (interior_at points t i) cps).
Proof.
  intros H1 Hi. unfold interior_step, interior_at.
  destruct (lookup_lt_is_Some_2 points (i - 1) ltac:(lia)) as [pp Hpp].
  destruct (lookup_lt_is_Some_2 points i ltac:(lia)) as [pi Hpi].
  destruct (lookup_lt_is_Some_2 points (i + 1) ltac:(lia)) as [pn Hpn].
  rewrite Hpp, Hpi, Hpn.
  rewrite (index_lookup _ _ _ Hpi), bind_ret.
  rewrite (index_lookup _ _ _ Hpp), bind_ret.
  rewrite (index_lookup _ _ _ Hpn), bind_ret. reflexivity.
Qed.

(** The first loop never throws and fills exactly the interior indices. *)
Lemma first_loop points t n :
  n + 2 <= length points ->
  for_each (seq 1 n) (cpoints_after points t 0) (interior_step points t)
  = ret (cpoints_after points t n).
Proof.
  induction n as [|n IH]; intros Hn; [reflexivity|].
  rewrite seq_S, for_each_app, IH by lia.
  rewrite bind_ret. cbn [for_each]. 
  rewrite interior_step_at by lia. rewrite !bind_ret.
  cbn [Nat.add]. now rewrite cpoints_after_S by lia.
Qed.

End ControlPoints.

Section ControlPointsSpec.
Context {num : Type} `{JSNumber num}.
Local Open Scope canvas_scope.

Implicit Types (points : list (@point num)) (cps : list (option (@cobj num))).

Lemma interior_at_lookup points t i pp pi pn :
  points !! (i - 1) = Some pp -> points !! i = Some pi ->
  points !! (i + 1) = Some pn ->
  interior_at points t i = interior_cpoints pp pi pn t.
Proof. unfold interior_at. now intros -> -> ->. Qed.

Lemma interior_cpoints_cp pp pi pn t :
  is_Some (cp (interior_cpoints pp pi pn t)) /\
  is_Some (cn (interior_cpoints pp pi pn t)).
Proof. unfold interior_cpoints. destruct (tangent pp pn). split; eauto. Qed.

(** What [cpoints] holds when the drawing starts. *)
Lemma control_points_spec points t :
  3 <= length points ->
  exists cps,
    control_points points t = ([], Returned cps)
    /\ length cps = length points
    /\ (forall i pp pi pn,
          1 <= i -> points !! (i - 1) = Some pp -> points !! i = Some pi ->
          points !! (i + 1) = Some pn ->
          cps !! i = Some (Some (interior_cpoints pp pi pn t)))
    /\ (exists p0 c1 b,
          points !! 0 = Some p0 /\ cps !! 1 = Some (Some c1) /\ cp c1 = Some b
          /\ cps !! 0 = Some (Some {| cp := None; cn := Some (midpoint p0 b) |}))
    /\ (exists pl c2 a,
          points !! (length points - 1) = Some pl
          /\ cps !! (length points - 2) = Some (Some c2) /\ cn c2 = Some a
          /\ cps !! (length points - 1)
             = Some (Some {| cp := Some (midpoint pl a); cn := None |})).
Proof.
  intros Hl. set (l := length points) in *.
  assert (Hlen : forall n, length (cpoints_after points t n) = l)
    by (intros; apply length_cpoints_after).
  destruct (lookup_lt_is_Some_2 points 0 ltac:(lia)) as [p0 Hp0].
  destruct (lookup_lt_is_Some_2 points (l - 1) ltac:(lia)) as [pl Hpl].
  set (c1 := interior_at points t 1).
  set (c2 := interior_at points t (l - 2)).
  assert (Hc1 : exists b, cp c1 = Some b).
  { subst c1. unfold interior_at.
    destruct (lookup_lt_is_Some_2 points (1 - 1) ltac:(lia)) as [? ->].
    destruct (lookup_lt_is_Some_2 points 1 ltac:(lia)) as [? ->].
    destruct (lookup_lt_is_Some_2 points (1 + 1) ltac:(lia)) as [? ->].
    apply interior_cpoints_cp. }
  assert (Hc2 : exists a, cn c2 = Some a).
  { subst c2. unfold interior_at.
    destruct (lookup_lt_is_Some_2 points (l - 2 - 1) ltac:(lia)) as [? ->].
    destruct (lookup_lt_is_Some_2 points (l - 2) ltac:(lia)) as [? ->].
    destruct (lookup_lt_is_Some_2 points (l - 2 + 1) ltac:(lia)) as [? ->].
    apply interior_cpoints_cp. }
  destruct Hc1 as [b Hb], Hc2 as [a Ha].
  set (e0 := {| cp := None; cn := Some (midpoint p0 b) |}).
  set (e1 := {| cp := Some (midpoint pl a); cn := None |}).
  set (cps1 := array_set 0 e0 (cpoints_after points t (l - 2))).
  assert (Hcps1 : cps1 = <[0 := Some e0]> (cpoints_after points t (l - 2))).
  { subst cps1. apply array_set_lt. rewrite Hlen. lia. }
  assert (Hlen1 : length cps1 = l) by (rewrite Hcps1, length_insert; apply Hlen).
  assert (Hl2 : cps1 !! (l - 2) = Some (Some c2)).
  { rewrite Hcps1, list_lookup_insert_ne by lia.
    rewrite lookup_cpoints_after by (fold l; lia).
    now rewrite decide_True by lia. }
  exists (array_set (l - 1) e1 cps1).
  rewrite (array_set_lt (l - 1)) by lia.
  split; [|split; [|split; [|split]]].
  - unfold control_points, for_range. fold l.
    rewrite <- (cpoints_after_0 points t).
    replace (l - 1 - 1) with (l - 2) by lia.
    rewrite first_loop by (fold l; lia). rewrite bind_ret.
    rewrite (index_lookup _ _ _ Hp0), bind_ret.
    rewrite (elem_lookup _ 1 c1), bind_ret.
    2:{ rewrite lookup_cpoints_after by (fold l; lia).
        now rewrite decide_True by lia. }
    rewrite Hb. cbn [prop]. rewrite bind_ret.
    rewrite (index_lookup _ _ _ Hpl), bind_ret.
    fold (midpoint p0 b). fold e0. fold cps1.
    rewrite (elem_lookup _ _ _ Hl2), bind_ret.
    rewrite Ha. cbn [prop]. rewrite bind_ret.
    fold (midpoint pl a). fold e1.
    change (ret (num := num) (array_set (l - 1) e1 cps1)
            = ([], Returned (<[l - 1:=Some e1]> cps1))).
    rewrite (array_set_lt (l - 1)) by lia. reflexivity.
  - now rewrite length_insert.
  - intros i pp pi pn Hi Hpp Hpi Hpn.
    assert (i + 1 < l) by (apply lookup_lt_Some in Hpn; fold l in Hpn; lia).
    rewrite list_lookup_insert_ne by lia.
    rewrite Hcps1, list_lookup_insert_ne by lia.
    rewrite lookup_cpoints_after by (fold l; lia).
    rewrite decide_True by lia.
    now rewrite (interior_at_lookup _ _ _ _ _ _ Hpp Hpi Hpn).
  - exists p0, c1, b. split; [exact Hp0|]. split; [|split; [exact Hb|]].
    + rewrite list_lookup_insert_ne by lia.
      rewrite Hcps1, list_lookup_insert_ne by lia.
      rewrite lookup_cpoints_after by (fold l; lia).
      now rewrite decide_True by lia.
    + rewrite list_lookup_insert_ne by lia.
      rewrite Hcps1. apply list_lookup_insert_eq. rewrite Hlen. lia.
  - exists pl, c2, a. split; [exact Hpl|]. split; [|split; [exact Ha|]].
    + now rewrite list_lookup_insert_ne by lia.
    + apply list_lookup_insert_eq. lia.
Qed.

End ControlPointsSpec.

(** ** Three points or more: the path *)

Section Path.
Context {num : Type} `{JSNumber num}.
Local Open Scope canvas_scope.

Implicit Types (points : list (@point num)) (cps : list (option (@cobj num))).

Lemma curve_step_emit points cps i c :
  segment_of points cps i c ->
  curve_step points cps (i + 1) tt = ([c], Returned tt).
Proof.
  intros (p & c0 & c1 & a & b & Hp & Hc0 & Ha & Hc1 & Hb & ->).
  unfold curve_step.
  rewrite (index_lookup _ _ _ Hp), bind_ret.
  rewrite (elem_lookup _ _ _ Hc1), bind_ret.
  replace (i + 1 - 1) with i by lia.
  rewrite (elem_lookup _ _ _ Hc0), bind_ret.
  rewrite Ha, Hb. cbn [prop]. now rewrite !bind_ret.
Qed.

(** The second loop issues one curve per segment and never throws, provided
    every control point it reads is there. *)
Lemma second_loop points cps n :
  (forall i, i < n -> exists c, segment_of points cps i c) ->
  exists segs,
    for_each (seq 1 n) tt (curve_step points cps) = (segs, Returned tt)
    /\ length segs = n
    /\ (forall i, i < n -> exists c, segs !! i = Some c /\ segment_of points cps i c).
Proof.
  induction n as [|n IH]; intros Hseg.
  - exists []. repeat split. intros i Hi. lia.
  - destruct IH as (segs & Hrun & Hlen & Hsegs); [intros i Hi; apply Hseg; lia|].
    destruct (Hseg n ltac:(lia)) as [c Hc].
    exists (segs ++ [c]).
    split; [|split].
    + rewrite seq_S, for_each_app, Hrun, bind_returned. cbn [for_each].
      replace (1 + n) with (n + 1) by lia.
      rewrite (curve_step_emit _ _ _ _ Hc). reflexivity.
    + rewrite length_app. simpl. lia.
    + intros i Hi. destruct (decide (i = n)) as [->|Hne].
      * exists c. split; [|exact Hc].
        rewrite lookup_app_r by lia. now rewrite Hlen, Nat.sub_diag.
      * destruct (Hsegs i ltac:(lia)) as (c' & Hc' & Hs).
        exists c'. split; [|exact Hs]. now apply lookup_app_l_Some.
Qed.

(** Every segment finds its two control points in the array built by
    [control_points]. *)
Lemma control_points_complete points t cps :
  3 <= length points ->
  control_points points t = ([], Returned cps) ->
  forall i, i < length points - 1 -> exists c, segment_of points cps i c.
Proof.
  intros Hl Hrun i Hi.
  destruct (control_points_spec points t Hl)
    as (cps' & Hrun' & Hlen & Hint & Hfirst & Hlast).
  rewrite Hrun in Hrun'. injection Hrun' as <-.
  destruct Hfirst as (p0 & c1 & b & Hp0 & Hc1 & Hb & H0).
  destruct Hlast as (pl & c2 & a & Hpl & Hc2 & Ha & Hl1).
  set (l := length points) in *.
  assert (Hinterior : forall j, 1 <= j -> j + 1 < l ->
            exists c a' b', cps !! j = Some (Some c)
                            /\ cn c = Some a' /\ cp c = Some b').
  { intros j Hj1 Hj2.
    destruct (lookup_lt_is_Some_2 points (j - 1) ltac:(lia)) as [pp Hpp].
    destruct (lookup_lt_is_Some_2 points j ltac:(lia)) as [pi Hpi].
    destruct (lookup_lt_is_Some_2 points (j + 1) ltac:(lia)) as [pn Hpn].
    destruct (interior_cpoints_cp pp pi pn t) as [[b' Hb'] [a' Ha']].
    exists (interior_cpoints pp pi pn t), a', b'.
    split; [now apply Hint|]. now split. }
  destruct (lookup_lt_is_Some_2 points (i + 1) ltac:(lia)) as [p Hp].
  assert (Hout : exists c0 a0, cps !! i = Some (Some c0) /\ cn c0 = Some a0).
  { destruct (decide (i = 0)) as [->|Hi0].
    - eexists _, _. split; [exact H0|reflexivity].
    - destruct (Hinterior i ltac:(lia) ltac:(lia)) as (c & a' & b' & ? & ? & ?).
      eauto. }
  assert (Hin : exists c1' b1, cps !! (i + 1) = Some (Some c1') /\ cp c1' = Some b1).
  { destruct (decide (i + 1 = l - 1)) as [Heq|Hne].
    - rewrite Heq. eexists _, _. split; [exact Hl1|reflexivity].
    - destruct (Hinterior (i + 1) ltac:(lia) ltac:(lia)) as (c & a' & b' & ? & ? & ?).
      eauto. }
  destruct Hout as (c0 & a0 & Hc0 & Ha0), Hin as (c1' & b1 & Hc1' & Hb1).
  eexists. exists p, c0, c1', a0, b1. repeat (split; [eassumption|]). reflexivity.
Qed.

(** The whole call, for three points or more. *)
Lemma bezier_path (points : list point) (tension : num) :
  3 <= length points ->
  exists cps p0 segs,
    control_points points (default_tension tension) = ([], Returned cps)
    /\ points !! 0 = Some p0
    /\ bezierCurveThrough points tension
       = ([BeginPath; MoveTo p0.1 p0.2] ++ segs ++ [Stroke], Returned tt)
    /\ length segs = length points - 1
    /\ (forall i, i < length points - 1 ->
          exists c, segs !! i = Some c /\ segment_of points cps i c).
Proof.
  intros Hl.
  destruct (control_points_spec points (default_tension tension) Hl)
    as (cps & Hrun & Hlen & _ & (p0 & _ & _ & Hp0 & _) & _).
  destruct (second_loop points cps (length points - 1)
              (control_points_complete _ _ _ Hl Hrun))
    as (segs & Hloop & Hsegs_len & Hsegs).
  exists cps, p0, segs. split; [exact Hrun|]. split; [exact Hp0|].
  split; [|split; [exact Hsegs_len|exact Hsegs]].
  unfold bezierCurveThrough.
  rewrite decide_False by lia. rewrite bind_emit.
  rewrite decide_False by lia. rewrite Hrun, bind_done.
  unfold draw_curves, for_range.
  rewrite (index_lookup _ _ _ Hp0), bind_ret, bind_emit.
  rewrite Hloop, bind_returned. reflexivity.
Qed.

(** The pen positions of a path made of the segments are the points. *)
Lemma path_endpoints (points : list point) cps (p0 : point) segs :
  points !! 0 = Some p0 ->
  length segs = length points - 1 ->
  (forall i, i < length points - 1 ->
     exists c, segs !! i = Some c /\ segment_of points cps i c) ->
  endpoint <$> (MoveTo p0.1 p0.2 :: segs) = Some <$> points.
Proof.
  intros Hp0 Hlen Hsegs. apply list_eq. intros [|i].
  - rewrite !list_lookup_fmap, Hp0. now destruct p0.
  - change ((endpoint <$> segs) !! i = (Some <$> points) !! S i).
    rewrite !list_lookup_fmap.
    destruct (decide (i < length points - 1)) as [Hi|Hi].
    + destruct (Hsegs i Hi) as (c & -> & p & c0 & c1 & a & b & Hp & _ & _ & _ & _ & ->).
      replace (S i) with (i + 1) by lia. rewrite Hp. now destruct p.
    + rewrite (proj2 (lookup_ge_None segs i)) by lia.
      now rewrite (proj2 (lookup_ge_None points (S i))) by lia.
Qed.

(** C3. For three points or more the operations issued are, in this order:
    [beginPath], [moveTo] the first point, one [bezierCurveTo] per segment
    (segment [i] with the outgoing control point of point [i], the incoming
    control point of point [i + 1], ending at point [i + 1]) and [stroke];
    nothing else is issued, the call returns normally, and the pen positions
    of the path are the input points in order. *)
Theorem curve_commands (points : list point) (tension : num) :
  3 <= length points ->
  exists cps p0 segs,
    control_points points (default_tension tension) = ([], Returned cps)
    /\ points !! 0 = Some p0
    /\ bezierCurveThrough points tension
       = ([BeginPath; MoveTo p0.1 p0.2] ++ segs ++ [Stroke], Returned tt)
    /\ length segs = length points - 1
    /\ (forall i, i < length points - 1 ->
          exists c, segs !! i = Some c /\ segment_of points cps i c)
    /\ Forall (fun c => exists a b d e x y, c = BezierCurveTo a b d e x y) segs
    /\ endpoint <$> (MoveTo p0.1 p0.2 :: segs) = Some <$> points.
Proof.
  intros Hl.
  destruct (bezier_path points tension Hl)
    as (cps & p0 & segs & Hrun & Hp0 & Hcall & Hlen & Hsegs).
  exists cps, p0, segs.
  repeat (split; [assumption|]). split.
  - apply Forall_lookup_2. intros i c Hc.
    assert (Hi : i < length points - 1)
      by (apply lookup_lt_Some in Hc; lia).
    destruct (Hsegs i Hi) as (c' & Hc' & p & c0 & c1 & a & b & _ & _ & _ & _ & _ & ->).
    rewrite Hc in Hc'. injection Hc' as ->. eauto 7.
  - now apply (path_endpoints points cps).
Qed.

(** C2. For three points or more, the first point only gets an outgoing
    control point, the midpoint of the point itself and the incoming control
    point of point 1; the last point only gets an incoming control point, the
    midpoint of the point itself and the outgoing control point of point
    [n - 2]. *)
Theorem endpoint_control_points (points : list point) (tension : num) :
  3 <= length points ->
  exists cps (p0 pl : point) (c1 c2 : cobj) (b a : point),
    control_points points (default_tension tension) = ([], Returned cps)
    /\ points !! 0 = Some p0
    /\ points !! (length points - 1) = Some pl
    /\ cps !! 1 = Some (Some c1) /\ cp c1 = Some b
    /\ cps !! (length points - 2) = Some (Some c2) /\ cn c2 = Some a
    /\ cps !! 0 = Some (Some {| cp := None; cn := Some (midpoint p0 b) |})
    /\ cps !! (length points - 1)
       = Some (Some {| cp := Some (midpoint pl a); cn := None |}).
Proof.
  intros Hl.
  destruct (control_points_spec points (default_tension tension) Hl)
    as (cps & Hrun & _ & _ & (p0 & c1 & b & Hp0 & Hc1 & Hb & H0)
        & (pl & c2 & a & Hpl & Hc2 & Ha & Hlast)).
  exists cps, p0, pl, c1, c2, b, a. repeat (split; [assumption|]). assumption.
Qed.

End Path.

(** ** Geometry of the interior control points, in exact arithmetic *)

Section Geometry.
Local Open Scope R_scope.

Implicit Types (p q pp pi pn : R * R) (points : list (R * R)).

Lemma norm_sq_pos (x y : R) : (x, y) <> (0, 0) -> 0 < x * x + y * y.
Proof.
  intros Hne. destruct (Rle_lt_dec (x * x + y * y) 0) as [Hle|Hlt]; [|exact Hlt].
  exfalso. apply Hne. f_equal; nra.
Qed.

Lemma norm_normalized (v : R * R) : v <> (0, 0) -> norm (normalized v) = 1.
Proof.
  destruct v as [x y]. intros Hne. pose proof (norm_sq_pos x y Hne) as Hpos.
  unfold normalized, norm. cbn [fst snd].
  set (n := sqrt (x * x + y * y)).
  assert (Hn : 0 < n) by (apply sqrt_lt_R0; exact Hpos).
  assert (Hnn : n * n = x * x + y * y) by (apply sqrt_sqrt; lra).
  replace (x / n * (x / n) + y / n * (y / n)) with ((x * x + y * y) / (n * n))
    by (field; lra).
  rewrite <- Hnn. replace (n * n / (n * n)) with 1 by (field; lra).
  apply sqrt_1.
Qed.

Lemma vec_nonzero pp pn : pp <> pn -> vec pp pn <> (0, 0).
Proof.
  destruct pp as [a b], pn as [c d]. unfold vec. cbn [fst snd].
  intros Hne Heq. injection Heq as H1 H2. apply Hne. f_equal; lra.
Qed.



(** In exact arithmetic, at an interior point whose neighbours differ, the
    tangent is the vector from the previous to the next point scaled to
    length one; the incoming control point is
    [point - tangent * dp * tension] and the outgoing one
    [point + tangent * dn * tension], with [dp] and [dn] the distances to the
    previous and the next point; both lie on the line through the point
    directed by the tangent. *)
Lemma interior_tangent_line points (tension : R) (i : nat) pp pi pn :
  (1 <= i)%nat ->
  points !! (i - 1)%nat = Some pp -> points !! i = Some pi ->
  points !! (i + 1)%nat = Some pn ->
  pp <> pn ->
  let t := default_tension tension in
  let d := normalized (vec pp pn) in
  let dp := dist pi pp in
  let dn := dist pi pn in
  let c_in := (pi.1 - d.1 * dp * t, pi.2 - d.2 * dp * t) in
  let c_out := (pi.1 + d.1 * dn * t, pi.2 + d.2 * dn * t) in
  tangent pp pn = d
  /\ norm d = 1
  /\ (exists cps,
        control_points points t = ([], Returned cps)
        /\ cps !! i = Some (Some {| cp := Some c_in; cn := Some c_out |}))
  /\ c_in = along pi d (- (dp * t))
  /\ c_out = along pi d (dn * t).
Proof.
  intros Hi Hpp Hpi Hpn Hne t d dp dn c_in c_out.
  split; [reflexivity|].
  split; [apply norm_normalized, vec_nonzero, Hne|].
  split.
  - assert (Hl : (3 <= length points)%nat)
      by (apply lookup_lt_Some in Hpn; lia).
    destruct (control_points_spec points t Hl) as (cps & Hrun & _ & Hint & _).
    exists cps. split; [exact Hrun|].
    rewrite (Hint i pp pi pn Hi Hpp Hpi Hpn). reflexivity.
  - split; unfold c_in, c_out, along; cbn [fst snd]; f_equal; ring.
Qed.


End Geometry.

(** ** The interior control points as the code computes them *)

Section InteriorFormula.
Context {num : Type} `{JSNumber num}.
Local Open Scope num_scope.

Implicit Types (points : list (@point num)) (pp pi pn : @point num).

(** The control points of an interior point, and the two curves that carry
    them. *)
Lemma interior_segments points (tension : num) (i : nat) pp pi pn :
  (1 <= i)%nat ->
  points !! (i - 1)%nat = Some pp -> points !! i = Some pi ->
  points !! (i + 1)%nat = Some pn ->
  exists cps (p0 c_in c_out : @point num) segs,
    control_points points (default_tension tension) = ([], Returned cps)
    /\ interior_cpoints pp pi pn (default_tension tension)
       = {| cp := Some c_in; cn := Some c_out |}
    /\ cps !! i = Some (Some {| cp := Some c_in; cn := Some c_out |})
    /\ points !! 0%nat = Some p0
    /\ bezierCurveThrough points tension
       = ([BeginPath; MoveTo p0.1 p0.2] ++ segs ++ [Stroke], Returned tt)
    /\ (exists x y,
          segs !! (i - 1)%nat = Some (BezierCurveTo x y c_in.1 c_in.2 pi.1 pi.2))
    /\ (exists x y,
          segs !! i = Some (BezierCurveTo c_out.1 c_out.2 x y pn.1 pn.2)).
Proof.
  intros Hi Hpp Hpi Hpn.
  assert (Hil : (i + 1 < length points)%nat) by (apply lookup_lt_Some in Hpn; lia).
  assert (Hl : (3 <= length points)%nat) by lia.
  destruct (bezier_path points tension Hl)
    as (cps & p0 & segs & Hrun & Hp0 & Hcall & Hlen & Hsegs).
  destruct (control_points_spec points (default_tension tension) Hl)
    as (cps' & Hrun' & _ & Hint & _).
  rewrite Hrun in Hrun'. injection Hrun' as <-.
  specialize (Hint i pp pi pn Hi Hpp Hpi Hpn).
  destruct (interior_cpoints_cp pp pi pn (default_tension tension))
    as [[c_in Hin] [c_out Hout]].
  assert (Heq : interior_cpoints pp pi pn (default_tension tension)
                = {| cp := Some c_in; cn := Some c_out |})
    by (destruct (interior_cpoints pp pi pn (default_tension tension));
        cbn in *; congruence).
  rewrite Heq in Hint.
  exists cps, p0, c_in, c_out, segs.
  split; [exact Hrun|]. split; [exact Heq|]. split; [exact Hint|].
  split; [exact Hp0|]. split; [exact Hcall|]. split.
  - destruct (Hsegs (i - 1)%nat ltac:(lia))
      as (c & Hc & p & c0 & c1 & a & b & Hp & _ & _ & Hci & Hb & ->).
    replace (i - 1 + 1)%nat with i in * by lia.
    rewrite Hpi in Hp. injection Hp as <-.
    rewrite Hint in Hci. injection Hci as <-. cbn in Hb. injection Hb as <-.
    eauto.
  - destruct (Hsegs i ltac:(lia))
      as (c & Hc & p & c0 & c1 & a & b & Hp & Hci & Ha & _ & _ & ->).
    rewrite Hpn in Hp. injection Hp as <-.
    rewrite Hint in Hci. injection Hci as <-. cbn in Ha. injection Ha as <-.
    eauto.
Qed.

End InteriorFormula.

(** C1, amended. In every number model, binary64 included, and at every
    interior point: with [(rdx, rdy)] the difference of the next and the
    previous point and [rd = sqrt (rdx * rdx + rdy * rdy)], the tangent is
    [(rdx / rd, rdy / rd)]; the incoming control point is
    [point - tangent * dp * tension] and the outgoing one
    [point + tangent * dn * tension], where [dp] and [dn] are computed by the
    same [sqrt] of a sum of squares from the previous and the next point and
    the tension is the argument when truthy, 0.25 otherwise; they are the
    control points of the curve arriving at the point and of the curve
    leaving it.  In exact arithmetic, when the neighbours differ, the tangent
    is the normalized vector between them and both control points lie on the
    line through the point directed by the tangent. *)
Theorem interior_control_points :
  (forall (num : Type) (N : JSNumber num) (points : list (@point num))
          (tension : num) (i : nat) (pp pi pn : @point num),
     (1 <= i)%nat ->
     points !! (i - 1)%nat = Some pp -> points !! i = Some pi ->
     points !! (i + 1)%nat = Some pn ->
     let t := if num_truthy tension then tension else num_quarter in
     let rdx := (pn.1 - pp.1)%num in
     let rdy := (pn.2 - pp.2)%num in
     let rd := num_sqrt (rdx * rdx + rdy * rdy)%num in
     let dp := num_sqrt ((pi.1 - pp.1) * (pi.1 - pp.1)
                         + (pi.2 - pp.2) * (pi.2 - pp.2))%num in
     let dn := num_sqrt ((pi.1 - pn.1) * (pi.1 - pn.1)
                         + (pi.2 - pn.2) * (pi.2 - pn.2))%num in
     let c_in : @point num :=
       (pi.1 - rdx / rd * dp * t, pi.2 - rdy / rd * dp * t)%num in
     let c_out : @point num :=
       (pi.1 + rdx / rd * dn * t, pi.2 + rdy / rd * dn * t)%num in
     tangent pp pn = (rdx / rd, rdy / rd)%num
     /\ exists cps (p0 : @point num) segs,
          control_points points t = ([], Returned cps)
          /\ cps !! i = Some (Some {| cp := Some c_in; cn := Some c_out |})
          /\ points !! 0%nat = Some p0
          /\ bezierCurveThrough points tension
             = ([BeginPath; MoveTo p0.1 p0.2] ++ segs ++ [Stroke], Returned tt)
          /\ (exists x y,
                segs !! (i - 1)%nat
                = Some (BezierCurveTo x y c_in.1 c_in.2 pi.1 pi.2))
          /\ (exists x y,
                segs !! i = Some (BezierCurveTo c_out.1 c_out.2 x y pn.1 pn.2)))
  /\ (forall (points : list (@point R)) (tension : R) (i : nat)
             (pp pi pn : @point R),
        (1 <= i)%nat ->
        points !! (i - 1)%nat = Some pp -> points !! i = Some pi ->
        points !! (i + 1)%nat = Some pn ->
        pp <> pn ->
        let t := default_tension tension in
        let d := normalized (vec pp pn) in
        let dp := dist pi pp in
        let dn := dist pi pn in
        let c_in := (pi.1 - d.1 * dp * t, pi.2 - d.2 * dp * t)%R in
        let c_out := (pi.1 + d.1 * dn * t, pi.2 + d.2 * dn * t)%R in
        tangent pp pn = d
        /\ norm d = 1%R
        /\ (exists cps,
              control_points points t = ([], Returned cps)
              /\ cps !! i = Some (Some {| cp := Some c_in; cn := Some c_out |}))
        /\ c_in = along pi d (- (dp * t))%R
        /\ c_out = along pi d (dn * t)%R).
Proof.
  split.
  - intros num N points tension i pp pi pn Hi Hpp Hpi Hpn.
    cbv zeta. split; [reflexivity|].
    destruct (interior_segments points tension i pp pi pn Hi Hpp Hpi Hpn)
      as (cps & p0 & c_in & c_out & segs & Hrun & Heq & Hcps & Hp0 & Hcall & Hin & Hout).
    unfold interior_cpoints, tangent, h, default_tension in Heq.
    injection Heq as <- <-.
    exists cps, p0, segs. repeat (split; [assumption|]). assumption.
  - intros points tension i pp pi pn Hi Hpp Hpi Hpn Hne.
    exact (interior_tangent_line points tension i pp pi pn Hi Hpp Hpi Hpn Hne).
Qed.

(** ** Coinciding neighbours, in binary64 *)

Section NaN.
Import F64.

Implicit Types (x y : f64) (p q pp pi pn : @point f64) (points : list (@point f64)).

Lemma eqb_finite_eq x y :
  eqb x y = true ->
  x = y \/ (exists s s', x = S754_zero s /\ y = S754_zero s').
Proof.
  unfold eqb, SFeqb.
  destruct x as [s| s| |s m e], y as [s'|s'| |s' m' e']; cbn;
    try discriminate; try (destruct s; discriminate);
    try (destruct s'; discriminate).
  - intros _. right. eauto.
  - destruct s, s'; try discriminate; intros _; now left.
  - change (PosDef.Pos.compare_cont Eq m m') with (Pos.compare m m').
    destruct s, s'; try discriminate;
      destruct (Z.compare_spec e e') as [->|?|?]; try discriminate;
      destruct (Pos.compare_spec m m') as [->|?|?]; try discriminate;
      intros _; now left.
Qed.

Lemma sub_diag x : sub x x = nan \/ sub x x = S754_zero false.
Proof.
  destruct x as [[]|[]| |s m e]; cbn; auto.
  right. unfold sub, SFsub. now rewrite Z.sub_diag.
Qed.

(** The difference of two coinciding numbers is a zero or NaN. *)
Lemma sub_same x y :
  same_number x y -> sub y x = nan \/ exists s, sub y x = S754_zero s.
Proof.
  intros [->|Heq].
  - destruct (sub_diag y) as [->| ->]; eauto.
  - destruct (eqb_finite_eq x y Heq) as [->|(s & s' & -> & ->)].
    + destruct (sub_diag y) as [->| ->]; eauto.
    + right. destruct s, s'; cbn; eauto.
Qed.

(** For finite numbers it is a zero. *)
Lemma sub_same_finite x y :
  same_number x y -> finite x = true -> finite y = true ->
  exists s, sub y x = S754_zero s.
Proof.
  intros Hsame Hx Hy.
  assert (Hdiag : forall z, finite z = true -> sub z z = S754_zero false).
  { intros [[]|[]| |s m e]; try discriminate; try reflexivity.
    intros _. unfold sub, SFsub. now rewrite Z.sub_diag. }
  destruct Hsame as [->|Heq]; [eauto|].
  destruct (eqb_finite_eq x y Heq) as [->|(s & s' & -> & ->)]; [eauto|].
  destruct s, s'; cbn; eauto.
Qed.

Lemma div_by_hypot_nan x y :
  (x = nan \/ exists s, x = S754_zero s) ->
  (y = nan \/ exists s, y = S754_zero s) ->
  div x (h x y) = nan /\ div y (h x y) = nan.
Proof.
  intros [->|[s ->]] [->|[s' ->]]; try destruct s; try destruct s';
    split; reflexivity.
Qed.

Lemma hypot_zero x y :
  (exists s, x = S754_zero s) -> (exists s, y = S754_zero s) ->
  h x y = S754_zero false.
Proof. intros [[] ->] [[] ->]; reflexivity. Qed.

Lemma tangent_nan pp pn : coincide pp pn -> tangent pp pn = (nan, nan).
Proof.
  intros [H1 H2]. unfold tangent.
  destruct (div_by_hypot_nan _ _ (sub_same _ _ H1) (sub_same _ _ H2)) as [Hx Hy].
  cbn [num_sub num_div f64_number] in *. now rewrite Hx, Hy.
Qed.

Lemma sub_nan_r x : sub x nan = nan.
Proof. now destruct x. Qed.

Lemma add_nan_r x : add x nan = nan.
Proof. now destruct x. Qed.

Lemma interior_cpoints_nan pp pi pn (t : f64) :
  coincide pp pn ->
  interior_cpoints pp pi pn t
  = {| cp := Some (nan, nan); cn := Some (nan, nan) |}.
Proof.
  intros Hc. unfold interior_cpoints. rewrite (tangent_nan _ _ Hc).
  cbn [num_sub num_add num_mul f64_number].
  change (mul (mul nan ?a) ?b) with nan.
  now rewrite !sub_nan_r, !add_nan_r.
Qed.

(** C6. When the neighbours of an interior point coincide, the tangent is
    divided by a zero distance (for finite coordinates) and is NaN in both
    components, so are the two control points of that point; the call still
    returns normally with the full sequence of operations, the curve
    arriving at the point and the one leaving it carrying the NaN control
    points. *)
Theorem coincident_neighbours_nan points (tension : f64) (i : nat) pp pi pn :
  1 <= i ->
  points !! (i - 1) = Some pp -> points !! i = Some pi ->
  points !! (i + 1) = Some pn ->
  coincide pp pn ->
  (finite pp.1 && finite pp.2 && finite pn.1 && finite pn.2 = true ->
     h (sub pn.1 pp.1) (sub pn.2 pp.2) = S754_zero false)
  /\ tangent pp pn = (nan, nan)
  /\ exists cps (p0 : @point f64) segs,
       control_points points (default_tension tension) = ([], Returned cps)
       /\ cps !! i = Some (Some {| cp := Some (nan, nan); cn := Some (nan, nan) |})
       /\ points !! 0 = Some p0
       /\ bezierCurveThrough points tension
          = ([BeginPath; MoveTo p0.1 p0.2] ++ segs ++ [Stroke], Returned tt)
       /\ length segs = length points - 1
       /\ (exists x y, segs !! (i - 1) = Some (BezierCurveTo x y nan nan pi.1 pi.2))
       /\ (exists x y, segs !! i = Some (BezierCurveTo nan nan x y pn.1 pn.2)).
Proof.
  intros Hi Hpp Hpi Hpn Hc.
  assert (Hl : 3 <= length points) by (apply lookup_lt_Some in Hpn; lia).
  assert (Hil : i + 1 < length points) by (apply lookup_lt_Some in Hpn; lia).
  split; [|split; [now apply tangent_nan|]].
  - intros Hfin. destruct Hc as [H1 H2].
    repeat (apply andb_true_iff in Hfin as [Hfin ?]).
    apply hypot_zero; now apply sub_same_finite.
  - destruct (bezier_path points tension Hl)
      as (cps & p0 & segs & Hrun & Hp0 & Hcall & Hlen & Hsegs).
    destruct (control_points_spec points (default_tension tension) Hl)
      as (cps' & Hrun' & _ & Hint & _).
    rewrite Hrun in Hrun'. injection Hrun' as <-.
    specialize (Hint i pp pi pn Hi Hpp Hpi Hpn).
    rewrite (interior_cpoints_nan _ _ _ _ Hc) in Hint.
    exists cps, p0, segs. repeat (split; [assumption|]). split.
    + destruct (Hsegs (i - 1) ltac:(lia))
        as (c & Hc1 & p & c0 & c1 & a & b & Hp & _ & _ & Hci & Hb & ->).
      replace (i - 1 + 1) with i in * by lia.
      rewrite Hpi in Hp. injection Hp as <-.
      rewrite Hint in Hci. injection Hci as <-. cbn in Hb. injection Hb as <-.
      eauto.
    + destruct (Hsegs i ltac:(lia))
        as (c & Hc1 & p & c0 & c1 & a & b & Hp & Hci & Ha & _ & _ & ->).
      rewrite Hpn in Hp. injection Hp as <-.
      rewrite Hint in Hci. injection Hci as <-. cbn in Ha. injection Ha as <-.
      eauto.
Qed.

End NaN.

(** ** The frame loop *)

Section DriverFacts.
Context {num : Type} `{JSNumber num}.
Context (Math_sin Math_round : num -> num) (Math_PI : num).
Context (canvas_width canvas_height : num).
Local Open Scope canvas_scope.
Local Open Scope num_scope.

Local Notation "# z" := (num_of_Z z) (at level 1, z at level 0, only parsing).
Local Abbreviation tick :=
  (renderCurves Math_sin Math_round Math_PI canvas_width canvas_height).
Local Abbreviation on_frame :=
  (animation_frame Math_sin Math_round Math_PI canvas_width canvas_height).
Local Abbreviation run :=
  (frames Math_sin Math_round Math_PI canvas_width canvas_height).
Local Abbreviation start :=
  (mount Math_sin Math_round Math_PI canvas_width canvas_height).
Local Abbreviation style_of := (style_of Math_round).

Implicit Types (st : @host num) (timeStamp now : num) (stamps : list num).

Lemma for_each_unit (idx : list nat) (body : nat -> unit -> Canvas num unit) :
  (forall i, (body i tt).2 = Returned tt) ->
  for_each idx tt body = (flat_map (fun i => (body i tt).1) idx, Returned tt).
Proof.
  intros Hret. induction idx as [|i idx IH]; [reflexivity|].
  cbn [for_each flat_map]. specialize (Hret i).
  destruct (body i tt) as [w r]. cbn [snd] in Hret. subst r.
  now rewrite bind_returned, IH.
Qed.

Lemma curve_returns (k n : num) :
  (bezierCurveThrough (curve_points k n) num_quarter).2 = Returned tt.
Proof.
  destruct (bezier_path (curve_points k n) num_quarter)
    as (cps & p0 & segs & _ & _ & -> & _); [cbn; lia|reflexivity].
Qed.

Lemma draw_frame_spec (elapsed : num) :
  draw_frame Math_sin Math_round Math_PI canvas_width canvas_height elapsed
  = (ClearRect #0 #0 canvas_width canvas_height
       :: flat_map (fun i =>
            let n := num_of_Z (Z.of_nat i) in
            style_of n
              :: (bezierCurveThrough (curve_points (sway Math_sin Math_PI elapsed) n)
                    num_quarter).1)
          (seq 0 70),
     Returned tt).
Proof.
  unfold draw_frame, for_range. rewrite bind_emit.
  rewrite for_each_unit.
  - cbn [fst snd]. do 2 f_equal.
  - intros i. cbv zeta. rewrite bind_emit. apply curve_returns.
Qed.

Lemma tick_spec st timeStamp :
  tick st timeStamp
  = {| startFrame := Some (start_of st timeStamp);
       lastFrame := Some (next_handle st);
       requests := requests st ++ [next_handle st];
       next_handle := S (next_handle st);
       surface := surface st ++
         (draw_frame Math_sin Math_round Math_PI canvas_width canvas_height
            (elapsed_of st timeStamp)).1 |}.
Proof.
  unfold renderCurves. rewrite draw_frame_spec. reflexivity.
Qed.

Lemma start_armed now : armed (start now).
Proof. unfold mount. rewrite tick_spec. exists 1. split; reflexivity. Qed.

Lemma on_frame_armed st now :
  armed st ->
  on_frame st now
  = tick {| startFrame := startFrame st; lastFrame := lastFrame st;
            requests := []; next_handle := next_handle st;
            surface := surface st |} now.
Proof. intros (id & _ & Hreq). unfold animation_frame. now rewrite Hreq. Qed.

Lemma on_frame_keeps_armed st now : armed st -> armed (on_frame st now).
Proof.
  intros Harmed. rewrite (on_frame_armed _ _ Harmed), tick_spec.
  eexists. split; reflexivity.
Qed.

Lemma run_armed st stamps : armed st -> armed (run st stamps).
Proof.
  revert st. induction stamps as [|t stamps IH]; intros st Harmed; [exact Harmed|].
  apply IH, on_frame_keeps_armed, Harmed.
Qed.

Lemma on_frame_idle st now : requests st = [] -> on_frame st now = st.
Proof.
  destruct st as [s l r n w]. cbn [requests]. intros ->. reflexivity.
Qed.

Lemma run_idle st stamps : requests st = [] -> run st stamps = st.
Proof.
  intros Hreq. induction stamps as [|t stamps IH]; [reflexivity|].
  cbn [frames foldl]. rewrite on_frame_idle by exact Hreq. exact IH.
Qed.

Lemma cleanup_armed st :
  armed st ->
  requests (cleanup st) = [] /\ surface (cleanup st) = surface st ++ [Reset].
Proof.
  intros (id & Hlast & Hreq). unfold cleanup, cancelAnimationFrame.
  cbn [requests surface lastFrame]. rewrite Hlast, Hreq. split; [|reflexivity].
  cbn. now rewrite decide_False by (intros Hne; now apply Hne).
Qed.

(** *** The reference timestamp *)

Lemma on_frame_startFrame st now (s : num) :
  armed st -> startFrame st = Some s -> startFrame (on_frame st now) = Some s.
Proof.
  intros Harmed Hs. rewrite (on_frame_armed _ _ Harmed), tick_spec.
  cbn [startFrame]. unfold start_of. cbn [startFrame]. now rewrite Hs.
Qed.

Lemma run_startFrame st stamps (s : num) :
  armed st -> startFrame st = Some s -> startFrame (run st stamps) = Some s.
Proof.
  revert st. induction stamps as [|t stamps IH]; intros st Harmed Hs; [exact Hs|].
  apply IH; [now apply on_frame_keeps_armed|now apply on_frame_startFrame].
Qed.

Lemma start_startFrame now : startFrame (start now) = Some now.
Proof. unfold mount. now rewrite tick_spec. Qed.

Lemma elapsed_seq_spec st stamps (s : num) :
  armed st -> startFrame st = Some s ->
  elapsed_seq Math_sin Math_round Math_PI canvas_width canvas_height st stamps
  = (fun t => t - s) <$> stamps.
Proof.
  revert st. induction stamps as [|t stamps IH]; intros st Harmed Hs; [reflexivity|].
  cbn [elapsed_seq fmap list_fmap]. f_equal.
  - unfold elapsed_of, start_of. now rewrite Hs.
  - apply IH; [now apply on_frame_keeps_armed|now apply on_frame_startFrame].
Qed.

Lemma elapsed_run_spec now stamps :
  elapsed_run Math_sin Math_round Math_PI canvas_width canvas_height now stamps
  = (fun t => t - now) <$> (now :: stamps).
Proof.
  unfold elapsed_run. cbn [fmap list_fmap]. f_equal.
  apply elapsed_seq_spec; [apply start_armed|apply start_startFrame].
Qed.

(** C7, amended. A tick clears the canvas and then, for each curve index
    [i] from 0 to 69, sets the stroke style and calls the interpolator, with
    tension 0.25, on the four points
    [(0, 4i)], [(230 + k, 100 + 9i + k)], [(500 + k, 300 + 9i + k)],
    [(800, 300 + 8i)], where [k = sin(elapsed / 5000 * pi * 2) * 40]: the
    end points are offset by [i] along the vertical axis only, the interior
    points are offset by [i] along the vertical axis only and displaced by
    [k] along both axes.  Every call returns normally, and the tick ends by
    requesting the next frame. *)
Theorem tick_curves st timeStamp :
  let elapsed := timeStamp - start_of st timeStamp in
  let k := Math_sin (elapsed / #5000 * Math_PI * #2) * #40 in
  let waypoints (i : nat) : list point :=
    let n := num_of_Z (Z.of_nat i) in
    [ (#0, #0 + n * #4);
      (#230 + k, #100 + n * #9 + k);
      (#500 + k, #300 + n * #9 + k);
      (#800, #300 + n * #8) ] in
  (forall i, (bezierCurveThrough (waypoints i) num_quarter).2 = Returned tt)
  /\ surface (tick st timeStamp)
     = surface st
       ++ ClearRect #0 #0 canvas_width canvas_height
          :: flat_map (fun i =>
               style_of (num_of_Z (Z.of_nat i))
                 :: (bezierCurveThrough (waypoints i) num_quarter).1)
             (seq 0 70)
  /\ requests (tick st timeStamp) = requests st ++ [next_handle st]
  /\ lastFrame (tick st timeStamp) = Some (next_handle st).
Proof.
  intros elapsed k waypoints.
  split; [intros i; apply curve_returns|].
  rewrite tick_spec. cbn [surface requests lastFrame].
  rewrite draw_frame_spec. repeat split.
Qed.

(** C8, amended. Once the cleanup has run, no request is pending and
    whatever frames the clock still fires change nothing: no tick runs and
    the context is not touched.  The cleanup itself, after cancelling the
    pending request, resets the context once. *)
Theorem teardown_stops_ticks now stamps (later : list num) :
  let st := run (start now) stamps in
  requests (cleanup st) = []
  /\ surface (cleanup st) = surface st ++ [Reset]
  /\ run (cleanup st) later = cleanup st.
Proof.
  intros st.
  destruct (cleanup_armed st) as [Hreq Hsurf];
    [apply run_armed, start_armed|].
  split; [exact Hreq|]. split; [exact Hsurf|]. now apply run_idle.
Qed.

End DriverFacts.

(** ** Elapsed time, with exact timestamps *)

Section Clock.
Context (Math_sin Math_round : R -> R) (Math_PI : R).
Context (canvas_width canvas_height : R).
Local Open Scope R_scope.

Lemma Sorted_shift (s : R) (l : list R) :
  Sorted Rle l -> Sorted Rle ((fun t => t - s) <$> l).
Proof.
  induction 1 as [|a l Hl IH Hhd]; [constructor|].
  cbn [fmap list_fmap]. constructor; [exact IH|].
  destruct Hhd as [|b l' Hab]; constructor. lra.
Qed.

(** C9. [startFrame] is unset before the first tick, is set by it to the
    timestamp it receives, and keeps that value through every later frame.
    Hence the elapsed times are the timestamps minus the first one and, for
    non-decreasing timestamps, they are non-negative and non-decreasing. *)
Theorem elapsed_monotone (now : R) (stamps : list R) :
  Sorted Rle (now :: stamps) ->
  startFrame (fresh_host (num := R)) = None
  /\ (forall n,
        startFrame (frames Math_sin Math_round Math_PI canvas_width canvas_height
                      (mount Math_sin Math_round Math_PI canvas_width canvas_height now)
                      (take n stamps))
        = Some now)
  /\ elapsed_run Math_sin Math_round Math_PI canvas_width canvas_height now stamps
     = (fun t => t - now) <$> (now :: stamps)
  /\ Forall (Rle 0)
       (elapsed_run Math_sin Math_round Math_PI canvas_width canvas_height now stamps)
  /\ Sorted Rle
       (elapsed_run Math_sin Math_round Math_PI canvas_width canvas_height now stamps).
Proof.
  intros Hsorted.
  split; [reflexivity|].
  split; [intros n; apply run_startFrame; [apply start_armed|apply start_startFrame]|].
  pose proof (elapsed_run_spec Math_sin Math_round Math_PI
                canvas_width canvas_height now stamps) as Hrun.
  split; [exact Hrun|].
  rewrite Hrun. split; [|now apply Sorted_shift].
  apply Sorted_StronglySorted in Hsorted; [|intros x y z; apply Rle_trans].
  apply StronglySorted_inv in Hsorted as [_ Hall].
  cbn [fmap list_fmap]. constructor; [cbn; lra|].
  apply Forall_fmap. eapply Forall_impl; [exact Hall|].
  intros t Ht. cbn in *. lra.
Qed.

End Clock.

(** ** Every input: outcome and shape of what is issued *)

Section EveryInput.
Context {num : Type} `{JSNumber num}.

Implicit Types (points : list (@point num)) (tension : num).

(** The three ways through the function. *)
Lemma bezier_cases points tension :
  bezierCurveThrough points tension = ([], Returned tt) /\ length points < 2
  \/ (exists p q : point,
        points = [p; q]
        /\ bezierCurveThrough points tension
           = ([BeginPath; MoveTo p.1 p.2; LineTo q.1 q.2; Stroke], Returned tt))
  \/ (3 <= length points
      /\ exists (p0 : point) segs,
           bezierCurveThrough points tension
           = ([BeginPath; MoveTo p0.1 p0.2] ++ segs ++ [Stroke], Returned tt)
           /\ length segs = length points - 1
           /\ Forall (fun c => is_path_op c = true) segs).
Proof.
  destruct points as [|p [|q [|r rest]]].
  - left. split; [reflexivity|simpl; lia].
  - left. split; [reflexivity|simpl; lia].
  - right. left. exists p, q. split; reflexivity.
  - right. right. assert (Hl : 3 <= length (p :: q :: r :: rest)) by (simpl; lia).
    split; [exact Hl|].
    destruct (bezier_path _ tension Hl) as (cps & p0 & segs & _ & _ & Hcall & Hlen & Hsegs).
    exists p0, segs. split; [exact Hcall|]. split; [exact Hlen|].
    apply Forall_lookup_2. intros i c Hc.
    assert (Hi : i < length (p :: q :: r :: rest) - 1)
      by (apply lookup_lt_Some in Hc; lia).
    destruct (Hsegs i Hi) as (c' & Hc' & ? & ? & ? & ? & ? & _ & _ & _ & _ & _ & ->).
    rewrite Hc in Hc'. now injection Hc' as ->.
Qed.

(** X1. The function never throws: whatever the points and the tension, no
    read goes through a missing element, and the call returns normally. *)
Theorem bezier_never_throws points tension :
  (bezierCurveThrough points tension).2 = Returned tt.
Proof.
  destruct (bezier_cases points tension)
    as [[-> _]|[(p & q & _ & ->)|(_ & p0 & segs & -> & _)]]; reflexivity.
Qed.

(** X2. The number of operations issued depends on the number of points
    only: none below two points, and two more than there are points
    otherwise. *)
Theorem bezier_operation_count points tension :
  length (bezierCurveThrough points tension).1
  = if decide (length points < 2) then 0 else length points + 2.
Proof.
  destruct (bezier_cases points tension)
    as [[-> Hl]|[(p & q & -> & ->)|(Hl & p0 & segs & -> & Hlen & _)]].
  - now rewrite decide_True.
  - reflexivity.
  - rewrite decide_False by lia. cbn [fst]. rewrite !length_app. simpl. lia.
Qed.

(** X3. Only path operations are issued: the canvas is never cleared, the
    stroke style never set and the context never reset, whatever the input.
    When something is issued, it starts with [beginPath] and ends with
    [stroke]. *)
Theorem bezier_only_path_operations points tension :
  Forall (fun c => is_path_op c = true) (bezierCurveThrough points tension).1
  /\ (2 <= length points ->
      head (bezierCurveThrough points tension).1 = Some BeginPath
      /\ last (bezierCurveThrough points tension).1 = Some Stroke).
Proof.
  destruct (bezier_cases points tension)
    as [[-> Hl]|[(p & q & -> & ->)|(Hl & p0 & segs & -> & Hlen & Hops)]].
  - split; [constructor|lia].
  - split; [repeat constructor|]. intros _. split; reflexivity.
  - split.
    + cbn [fst app]. repeat (constructor; [reflexivity|]).
      apply Forall_app. split; [exact Hops|]. repeat constructor.
    + intros _. split; [reflexivity|]. cbn [fst].
      now rewrite app_assoc, last_snoc.
Qed.

End EveryInput.

(** ** How far the control points are, in exact arithmetic *)

Section ControlDistance.
Local Open Scope R_scope.

Implicit Types (p q pp pi pn : @point R) (points : list (@point R)).

Lemma normalized_unit (v : R * R) :
  v <> (0, 0) ->
  (normalized v).1 * (normalized v).1 + (normalized v).2 * (normalized v).2 = 1.
Proof.
  intros Hv. pose proof (norm_normalized v Hv) as Hn. unfold norm in Hn.
  set (x := (normalized v).1 * (normalized v).1
            + (normalized v).2 * (normalized v).2) in *.
  assert (Hx : 0 <= x) by (unfold x; nra).
  rewrite <- (sqrt_sqrt x Hx), Hn. ring.
Qed.

Lemma offset_length (dx dy d t : R) :
  dx * dx + dy * dy = 1 -> 0 <= d ->
  sqrt (dx * d * t * (dx * d * t) + dy * d * t * (dy * d * t)) = Rabs t * d.
Proof.
  intros Hunit Hd.
  replace (dx * d * t * (dx * d * t) + dy * d * t * (dy * d * t))
    with ((dx * dx + dy * dy) * Rsqr (d * t)) by (unfold Rsqr; ring).
  rewrite Hunit, Rmult_1_l, sqrt_Rsqr_abs, Rabs_mult, (Rabs_pos_eq d Hd).
  ring.
Qed.

(** X6. At an interior point whose neighbours differ, the incoming control
    point is at distance [|tension| * dp] and the outgoing one at distance
    [|tension| * dn], where [dp] and [dn] are the distances to the previous
    and to the next point: each control point is a fraction (the tension) of
    the way to the neighbour on its side, measured along the tangent. *)
Theorem control_point_distance points (tension : R) (i : nat) pp pi pn :
  (1 <= i)%nat ->
  points !! (i - 1)%nat = Some pp -> points !! i = Some pi ->
  points !! (i + 1)%nat = Some pn ->
  pp <> pn ->
  exists cps (c_in c_out : @point R),
    control_points points (default_tension tension) = ([], Returned cps)
    /\ cps !! i = Some (Some {| cp := Some c_in; cn := Some c_out |})
    /\ dist pi c_in = Rabs (default_tension tension) * dist pi pp
    /\ dist pi c_out = Rabs (default_tension tension) * dist pi pn.
Proof.
  intros Hi Hpp Hpi Hpn Hne.
  assert (Hl : (3 <= length points)%nat) by (apply lookup_lt_Some in Hpn; lia).
  destruct (control_points_spec points (default_tension tension) Hl)
    as (cps & Hrun & _ & Hint & _).
  specialize (Hint i pp pi pn Hi Hpp Hpi Hpn).
  pose proof (normalized_unit _ (vec_nonzero _ _ Hne)) as Hunit.
  change (normalized (vec pp pn)) with (tangent pp pn) in Hunit.
  unfold interior_cpoints in Hint. destruct (tangent pp pn) as [dx dy].
  cbn [fst snd] in Hunit.
  do 3 eexists. split; [exact Hrun|]. split; [exact Hint|].
  unfold dist. cbn.
  split.
  - rewrite <- (offset_length dx dy _ _ Hunit) by apply sqrt_pos.
    unfold h. cbn. f_equal. ring.
  - rewrite <- (offset_length dx dy _ _ Hunit) by apply sqrt_pos.
    unfold h. cbn. f_equal. ring.
Qed.

End ControlDistance.

(** ** The curve under similarities of the plane, in exact arithmetic *)

Section Similarity.
Local Open Scope R_scope.

Context (a b : R) (v : R * R).
Hypothesis Hab : 0 < a * a + b * b.

Local Abbreviation f := (similarity a b v).

Implicit Types (p q pp pi pn : @point R) (points : list (@point R)).

Lemma sq_sum_nonneg (x y : R) : 0 <= x * x + y * y.
Proof. nra. Qed.

Lemma scale_pos : 0 < sqrt (a * a + b * b).
Proof using Hab. now apply sqrt_lt_R0. Qed.

Lemma h_similarity p q :
  h ((f p).1 - (f q).1) ((f p).2 - (f q).2)
  = sqrt (a * a + b * b) * h (p.1 - q.1) (p.2 - q.2).
Proof using Hab.
  unfold h, similarity. cbn.
  rewrite <- sqrt_mult by (lra || apply sq_sum_nonneg). f_equal. ring.
Qed.

Lemma unscale (x y : R) :
  x / (sqrt (a * a + b * b) * y) * (sqrt (a * a + b * b)) = x / y.
Proof using Hab.
  pose proof scale_pos as Hs. unfold Rdiv. rewrite Rinv_mult.
  replace (x * (/ sqrt (a * a + b * b) * / y) * sqrt (a * a + b * b))
    with (sqrt (a * a + b * b) * / sqrt (a * a + b * b) * (x * / y)) by ring.
  rewrite Rinv_r by lra. ring.
Qed.

Lemma interior_cpoints_similarity pp pi pn (t : R) :
  interior_cpoints (f pp) (f pi) (f pn) t
  = map_cobj f (interior_cpoints pp pi pn t).
Proof using Hab.
  unfold interior_cpoints, tangent, map_cobj.
  rewrite !h_similarity. cbn [cp cn fmap option_fmap option_map].
  set (s := sqrt (a * a + b * b)).
  set (rd := h (pn.1 - pp.1) (pn.2 - pp.2)).
  set (dp := h (pi.1 - pp.1) (pi.2 - pp.2)).
  set (dn := h (pi.1 - pn.1) (pi.2 - pn.2)).
  assert (Hx : forall d, ((f pn).1 - (f pp).1) / (s * rd) * (s * d)
                         = a * ((pn.1 - pp.1) / rd * d) - b * ((pn.2 - pp.2) / rd * d)).
  { intros d.
    replace (((f pn).1 - (f pp).1) / (s * rd) * (s * d))
      with (((f pn).1 - (f pp).1) / (s * rd) * s * d) by ring.
    unfold s. rewrite unscale. unfold similarity, Rdiv. cbn. ring. }
  assert (Hy : forall d, ((f pn).2 - (f pp).2) / (s * rd) * (s * d)
                         = b * ((pn.1 - pp.1) / rd * d) + a * ((pn.2 - pp.2) / rd * d)).
  { intros d.
    replace (((f pn).2 - (f pp).2) / (s * rd) * (s * d))
      with (((f pn).2 - (f pp).2) / (s * rd) * s * d) by ring.
    unfold s. rewrite unscale. unfold similarity, Rdiv. cbn. ring. }
  cbn [num_add num_sub num_mul num_div R_number].
  rewrite !Hx, !Hy. unfold similarity. cbn [fst snd].
  subst rd dp dn. f_equal; f_equal; f_equal; unfold Rdiv; ring.
Qed.

Lemma midpoint_similarity p q : midpoint (f p) (f q) = f (midpoint p q).
Proof. unfold midpoint, similarity. cbn. f_equal; field. Qed.

Lemma map_cobj_cp (c : @cobj R) (q : @point R) :
  cp c = Some q -> cp (map_cobj f c) = Some (f q).
Proof. intros Hq. unfold map_cobj. cbn. now rewrite Hq. Qed.

Lemma map_cobj_cn (c : @cobj R) (q : @point R) :
  cn c = Some q -> cn (map_cobj f c) = Some (f q).
Proof. intros Hq. unfold map_cobj. cbn. now rewrite Hq. Qed.

(** The control points of the image are the images of the control points. *)
Lemma control_points_similarity points (t : R) cps cps' :
  (3 <= length points)%nat ->
  control_points points t = ([], Returned cps) ->
  control_points (f <$> points) t = ([], Returned cps') ->
  cps' = fmap (M := option) (map_cobj f) <$> cps.
Proof using Hab.
  intros Hl Hrun Hrun'.
  assert (Hl' : (3 <= length (f <$> points))%nat) by now rewrite length_fmap.
  destruct (control_points_spec points t Hl)
    as (c & Hr & Hlen & Hint & (p0 & c1 & b1 & Hp0 & Hc1 & Hb1 & H0)
        & (pl & c2 & a2 & Hpl & Hc2 & Ha2 & Hlast)).
  rewrite Hrun in Hr. injection Hr as <-.
  destruct (control_points_spec (f <$> points) t Hl')
    as (c' & Hr' & Hlen' & Hint' & (p0' & c1' & b1' & Hp0' & Hc1' & Hb1' & H0')
        & (pl' & c2' & a2' & Hpl' & Hc2' & Ha2' & Hlast')).
  rewrite Hrun' in Hr'. injection Hr' as <-.
  rewrite length_fmap in *.
  set (l := length points) in *.
  assert (Hin : forall j, (1 <= j)%nat -> (j + 1 < l)%nat ->
            exists c, cps !! j = Some (Some c)
                      /\ cps' !! j = Some (Some (map_cobj f c))).
  { intros j Hj1 Hj2.
    destruct (lookup_lt_is_Some_2 points (j - 1) ltac:(lia)) as [pp Hpp].
    destruct (lookup_lt_is_Some_2 points j ltac:(lia)) as [pi Hpi].
    destruct (lookup_lt_is_Some_2 points (j + 1) ltac:(lia)) as [pn Hpn].
    exists (interior_cpoints pp pi pn t). split; [now apply Hint|].
    rewrite <- interior_cpoints_similarity.
    apply Hint'; [exact Hj1|rewrite list_lookup_fmap..].
    - now rewrite Hpp.
    - now rewrite Hpi.
    - now rewrite Hpn. }
  rewrite list_lookup_fmap, Hp0 in Hp0'. injection Hp0' as <-.
  rewrite list_lookup_fmap, Hpl in Hpl'. injection Hpl' as <-.
  apply list_eq. intros i. rewrite list_lookup_fmap.
  destruct (decide (i < l)%nat) as [Hi|Hi].
  - destruct (decide (i = 0)%nat) as [->|Hi0].
    + destruct (Hin 1%nat ltac:(lia) ltac:(lia)) as (c & Hc & Hc').
      rewrite Hc1 in Hc. injection Hc as <-.
      rewrite Hc1' in Hc'. injection Hc' as ->.
      rewrite (map_cobj_cp _ _ Hb1) in Hb1'. injection Hb1' as <-.
      rewrite H0', H0, midpoint_similarity. reflexivity.
    + destruct (decide (i = l - 1)%nat) as [->|Hil].
      * destruct (Hin (l - 2)%nat ltac:(lia) ltac:(lia)) as (c & Hc & Hc').
        rewrite Hc2 in Hc. injection Hc as <-.
        rewrite Hc2' in Hc'. injection Hc' as ->.
        rewrite (map_cobj_cn _ _ Ha2) in Ha2'. injection Ha2' as <-.
        rewrite Hlast', Hlast, midpoint_similarity. reflexivity.
      * destruct (Hin i ltac:(lia) ltac:(lia)) as (c & -> & ->). reflexivity.
  - rewrite !(proj2 (lookup_ge_None _ _)) by lia. reflexivity.
Qed.

(** X5. Rotating, scaling and translating the points rotates, scales and
    translates the curve: the call on the images of the points under a
    direct similarity issues the images of the operations issued on the
    points themselves. *)
Theorem bezier_similarity points (tension : R) :
  bezierCurveThrough (f <$> points) tension
  = (map_cmd f <$> (bezierCurveThrough points tension).1, Returned tt).
Proof using Hab.
  destruct (bezier_cases points tension)
    as [[Hcall Hlt]|[(p & q & -> & Hcall)|(Hl & p0 & segs & Hcall & Hlen & _)]].
  - rewrite Hcall. destruct points as [|p [|q rest]]; [reflexivity..|simpl in Hlt; lia].
  - rewrite Hcall. destruct p, q. reflexivity.
  - assert (Hl' : (3 <= length (f <$> points))%nat) by now rewrite length_fmap.
    destruct (bezier_path points tension Hl)
      as (cps & p0' & segs0 & Hrun & Hp0 & Hcall0 & _ & Hsegs).
    rewrite Hcall0 in Hcall. injection Hcall as Hp1 Hp2 Hs.
    apply app_inv_tail in Hs. subst segs0.
    destruct (bezier_path (f <$> points) tension Hl')
      as (cps' & q0 & segs' & Hrun' & Hq0 & Hcall' & Hlen' & Hsegs').
    rewrite length_fmap in *.
    pose proof (control_points_similarity _ _ _ _ Hl Hrun Hrun') as ->.
    assert (Hp0x : points !! 0%nat = Some (p0' : @point R)) by exact Hp0.
    rewrite list_lookup_fmap, Hp0x in Hq0. injection Hq0 as <-.
    rewrite Hcall', Hcall0. cbn [fst]. rewrite !fmap_app. cbn [fmap list_fmap map_cmd].
    destruct p0' as [x0 y0]. cbn [fst snd]. do 4 f_equal.
    apply list_eq. intros i. rewrite list_lookup_fmap.
    destruct (decide (i < length points - 1)%nat) as [Hi|Hi].
    + destruct (Hsegs i Hi) as (c & -> & p & c0 & c1 & ca & cb & Hp & Hc0 & Ha & Hc1 & Hb & ->).
      destruct (Hsegs' i Hi) as (c' & -> & p' & c0' & c1' & ca' & cb' & Hp' & Hc0' & Ha' & Hc1' & Hb' & ->).
      rewrite list_lookup_fmap, Hp in Hp'. injection Hp' as <-.
      rewrite list_lookup_fmap, Hc0 in Hc0'. injection Hc0' as <-.
      rewrite list_lookup_fmap, Hc1 in Hc1'. injection Hc1' as <-.
      rewrite (map_cobj_cn _ _ Ha) in Ha'. injection Ha' as <-.
      rewrite (map_cobj_cp _ _ Hb) in Hb'. injection Hb' as <-.
      destruct p, ca, cb. reflexivity.
    + rewrite !(proj2 (lookup_ge_None _ _)) by lia. reflexivity.
Qed.

End Similarity.

(** ** The points in reverse order, in exact arithmetic *)

Section Reverse.
Local Open Scope R_scope.

Implicit Types (p q pp pi pn : @point R) (points : list (@point R)).

Lemma h_opp (x y : R) : h (num := R) (- x) (- y) = h x y.
Proof. unfold h. cbn. f_equal. ring. Qed.

Lemma interior_cpoints_swap pp pi pn (t : R) :
  interior_cpoints pn pi pp t = swap_cobj (interior_cpoints pp pi pn t).
Proof.
  unfold interior_cpoints, tangent, swap_cobj. cbn [cp cn].
  cbn [num_add num_sub num_mul num_div R_number].
  replace (pp.1 - pn.1) with (- (pn.1 - pp.1)) by ring.
  replace (pp.2 - pn.2) with (- (pn.2 - pp.2)) by ring.
  rewrite h_opp. unfold Rdiv. f_equal; f_equal; f_equal; ring.
Qed.

(** The control points of the reversed list: those of the list, in
    reverse order, incoming and outgoing exchanged. *)
Lemma control_points_reverse points (t : R) cps cps' :
  (3 <= length points)%nat ->
  control_points points t = ([], Returned cps) ->
  control_points (reverse points) t = ([], Returned cps') ->
  forall j, (j < length points)%nat ->
    cps' !! j = fmap (M := option) swap_cobj <$> cps !! (length points - 1 - j)%nat.
Proof.
  intros Hl Hrun Hrun'.
  assert (Hl' : (3 <= length (reverse points))%nat) by now rewrite length_reverse.
  destruct (control_points_spec points t Hl)
    as (c & Hr & Hlen & Hint & (p0 & c1 & b1 & Hp0 & Hc1 & Hb1 & H0)
        & (pl & c2 & a2 & Hpl & Hc2 & Ha2 & Hlast)).
  rewrite Hrun in Hr. injection Hr as <-.
  destruct (control_points_spec (reverse points) t Hl')
    as (c' & Hr' & Hlen' & Hint' & (p0' & c1' & b1' & Hp0' & Hc1' & Hb1' & H0')
        & (pl' & c2' & a2' & Hpl' & Hc2' & Ha2' & Hlast')).
  rewrite Hrun' in Hr'. injection Hr' as <-.
  rewrite length_reverse in *.
  set (l := length points) in *.
  assert (Hrev : forall k, (k < l)%nat -> reverse points !! k = points !! (l - 1 - k)%nat).
  { intros k Hk. rewrite reverse_lookup by (fold l; lia). fold l. f_equal. lia. }
  assert (Hin : forall j, (1 <= j)%nat -> (j + 1 < l)%nat ->
            exists c, cps !! (l - 1 - j)%nat = Some (Some c)
                      /\ cps' !! j = Some (Some (swap_cobj c))).
  { intros j Hj1 Hj2.
    destruct (lookup_lt_is_Some_2 points (l - 1 - j - 1) ltac:(lia)) as [pp Hpp].
    destruct (lookup_lt_is_Some_2 points (l - 1 - j) ltac:(lia)) as [pi Hpi].
    destruct (lookup_lt_is_Some_2 points (l - 1 - j + 1) ltac:(lia)) as [pn Hpn].
    exists (interior_cpoints pp pi pn t). split; [apply Hint; [lia|assumption..]|].
    rewrite <- interior_cpoints_swap.
    apply Hint'; [exact Hj1|rewrite Hrev by lia..].
    - rewrite <- Hpn. f_equal. lia.
    - exact Hpi.
    - rewrite <- Hpp. f_equal. lia. }
  rewrite Hrev in Hp0' by lia. replace (l - 1 - 0)%nat with (l - 1)%nat in Hp0' by lia.
  rewrite Hpl in Hp0'. injection Hp0' as <-.
  rewrite Hrev in Hpl' by lia. replace (l - 1 - (l - 1))%nat with 0%nat in Hpl' by lia.
  rewrite Hp0 in Hpl'. injection Hpl' as <-.
  intros j Hj.
  destruct (decide (j = 0)%nat) as [->|Hj0].
  - destruct (Hin 1%nat ltac:(lia) ltac:(lia)) as (c & Hc & Hc').
    replace (l - 1 - 1)%nat with (l - 2)%nat in Hc by lia.
    rewrite Hc2 in Hc. injection Hc as <-.
    rewrite Hc1' in Hc'. injection Hc' as ->.
    cbn [swap_cobj cp] in Hb1'. rewrite Ha2 in Hb1'. injection Hb1' as <-.
    replace (l - 1 - 0)%nat with (l - 1)%nat by lia.
    rewrite H0', Hlast. reflexivity.
  - destruct (decide (j = l - 1)%nat) as [->|Hjl].
    + destruct (Hin (l - 2)%nat ltac:(lia) ltac:(lia)) as (c & Hc & Hc').
      replace (l - 1 - (l - 2))%nat with 1%nat in Hc by lia.
      rewrite Hc1 in Hc. injection Hc as <-.
      rewrite Hc2' in Hc'. injection Hc' as ->.
      cbn [swap_cobj cn] in Ha2'. rewrite Hb1 in Ha2'. injection Ha2' as <-.
      replace (l - 1 - (l - 1))%nat with 0%nat by lia.
      rewrite Hlast', H0. reflexivity.
    + destruct (Hin j ltac:(lia) ltac:(lia)) as (c & -> & ->). reflexivity.
Qed.

(** X13. Giving the points in reverse order draws the same curve backwards:
    the path starts at the last point, and where the call on the points
    issues, for the segment from [q] to [p], a curve with control points
    [c1], [c2] ending at [p], the call on the reversed points issues, at the
    mirrored position, the curve with control points [c2], [c1] ending at
    [q]. *)
Theorem bezier_reverse points (tension : R) :
  (3 <= length points)%nat ->
  exists (p0 pl : @point R) segs segs',
    points !! 0%nat = Some p0
    /\ points !! (length points - 1)%nat = Some pl
    /\ bezierCurveThrough points tension
       = ([BeginPath; MoveTo p0.1 p0.2] ++ segs ++ [Stroke], Returned tt)
    /\ bezierCurveThrough (reverse points) tension
       = ([BeginPath; MoveTo pl.1 pl.2] ++ segs' ++ [Stroke], Returned tt)
    /\ length segs = (length points - 1)%nat
    /\ length segs' = (length points - 1)%nat
    /\ forall j, (j < length points - 1)%nat ->
         exists (c1 c2 q p : @point R),
           points !! j = Some q
           /\ points !! (j + 1)%nat = Some p
           /\ segs !! j = Some (BezierCurveTo c1.1 c1.2 c2.1 c2.2 p.1 p.2)
           /\ segs' !! (length points - 2 - j)%nat
              = Some (BezierCurveTo c2.1 c2.2 c1.1 c1.2 q.1 q.2).
Proof.
  intros Hl.
  assert (Hl' : (3 <= length (reverse points))%nat) by now rewrite length_reverse.
  destruct (bezier_path points tension Hl)
    as (cps & p0 & segs & Hrun & Hp0 & Hcall & Hlen & Hsegs).
  destruct (bezier_path (reverse points) tension Hl')
    as (cps' & q0 & segs' & Hrun' & Hq0 & Hcall' & Hlen' & Hsegs').
  rewrite length_reverse in *.
  pose proof (control_points_reverse _ _ _ _ Hl Hrun Hrun') as Hcps.
  set (l := length points) in *.
  assert (Hrev : forall k, (k < l)%nat -> reverse points !! k = points !! (l - 1 - k)%nat).
  { intros k Hk. rewrite reverse_lookup by (fold l; lia). fold l. f_equal. lia. }
  destruct (lookup_lt_is_Some_2 points (l - 1) ltac:(lia)) as [pl Hpl].
  assert (Hq0x : reverse points !! 0%nat = Some (q0 : @point R)) by exact Hq0.
  rewrite Hrev in Hq0x by lia. replace (l - 1 - 0)%nat with (l - 1)%nat in Hq0x by lia.
  rewrite Hpl in Hq0x. injection Hq0x as <-.
  exists p0, pl, segs, segs'.
  split; [exact Hp0|]. split; [exact Hpl|]. split; [exact Hcall|].
  split; [exact Hcall'|]. split; [exact Hlen|]. split; [exact Hlen'|].
  intros j Hj.
  destruct (Hsegs j Hj)
    as (c & Hc & p & c0 & c1 & ca & cb & Hp & Hc0 & Ha & Hc1 & Hb & ->).
  destruct (Hsegs' (l - 2 - j)%nat ltac:(lia))
    as (c' & Hc' & p' & c0' & c1' & ca' & cb' & Hp' & Hc0' & Ha' & Hc1' & Hb' & ->).
  destruct (lookup_lt_is_Some_2 points j ltac:(lia)) as [q Hq].
  rewrite Hrev in Hp' by lia.
  replace (l - 1 - (l - 2 - j + 1))%nat with j in Hp' by lia.
  rewrite Hq in Hp'. injection Hp' as <-.
  rewrite Hcps in Hc0' by (fold l; lia). fold l in Hc0'.
  replace (l - 1 - (l - 2 - j))%nat with (j + 1)%nat in Hc0' by lia.
  rewrite Hc1 in Hc0'. injection Hc0' as <-.
  cbn [swap_cobj cn] in Ha'. rewrite Hb in Ha'. injection Ha' as <-.
  rewrite Hcps in Hc1' by (fold l; lia). fold l in Hc1'.
  replace (l - 1 - (l - 2 - j + 1))%nat with j in Hc1' by lia.
  rewrite Hc0 in Hc1'. injection Hc1' as <-.
  cbn [swap_cobj cp] in Hb'. rewrite Ha in Hb'. injection Hb' as <-.
  exists ca, cb, q, p. repeat split; assumption.
Qed.

End Reverse.

(** ** Points on a line, in exact arithmetic *)

Section Collinear.
Local Open Scope R_scope.

Context (o u : R * R).

Implicit Types (p q pp pi pn : @point R) (points : list (@point R)).

Lemma interior_on_line pp pi pn (t : R) (c_in c_out : @point R) :
  on_line o u pp -> on_line o u pi -> on_line o u pn ->
  interior_cpoints pp pi pn t = {| cp := Some c_in; cn := Some c_out |} ->
  on_line o u c_in /\ on_line o u c_out.
Proof.
  intros [sp ->] [si ->] [sn ->]. unfold interior_cpoints, tangent, along.
  cbn [fst snd num_add num_sub num_mul num_div R_number].
  set (rd := h _ _). set (dp := h _ _). set (dn := h _ _).
  intros Heq. injection Heq as <- <-. split.
  - exists (si - (sn - sp) / rd * dp * t). unfold along, Rdiv. cbn. f_equal; ring.
  - exists (si + (sn - sp) / rd * dn * t). unfold along, Rdiv. cbn. f_equal; ring.
Qed.

Lemma midpoint_on_line p q :
  on_line o u p -> on_line o u q -> on_line o u (midpoint p q).
Proof.
  intros [s1 ->] [s2 ->]. exists ((s1 + s2) / 2).
  unfold midpoint, along. cbn. f_equal; field.
Qed.

Lemma control_points_on_line points (t : R) cps :
  (3 <= length points)%nat ->
  Forall (on_line o u) points ->
  control_points points t = ([], Returned cps) ->
  forall j c q, cps !! j = Some (Some c) ->
    cp c = Some q \/ cn c = Some q -> on_line o u q.
Proof.
  intros Hl Hline Hrun.
  destruct (control_points_spec points t Hl)
    as (c & Hr & Hlen & Hint & (p0 & c1 & b1 & Hp0 & Hc1 & Hb1 & H0)
        & (pl & c2 & a2 & Hpl & Hc2 & Ha2 & Hlast)).
  rewrite Hrun in Hr. injection Hr as <-.
  set (l := length points) in *.
  assert (Hpt : forall k p, points !! k = Some p -> on_line o u p)
    by (intros k p Hk; exact (Forall_lookup_1 _ _ _ _ Hline Hk)).
  assert (Hin : forall j, (1 <= j)%nat -> (j + 1 < l)%nat ->
            exists c_in c_out,
              cps !! j = Some (Some {| cp := Some c_in; cn := Some c_out |})
              /\ on_line o u c_in /\ on_line o u c_out).
  { intros j Hj1 Hj2.
    destruct (lookup_lt_is_Some_2 points (j - 1) ltac:(lia)) as [pp Hpp].
    destruct (lookup_lt_is_Some_2 points j ltac:(lia)) as [pi Hpi].
    destruct (lookup_lt_is_Some_2 points (j + 1) ltac:(lia)) as [pn Hpn].
    specialize (Hint j pp pi pn Hj1 Hpp Hpi Hpn).
    destruct (interior_cpoints_cp pp pi pn t) as [[c_in Hcin] [c_out Hcout]].
    assert (Heq : interior_cpoints pp pi pn t = {| cp := Some c_in; cn := Some c_out |})
      by (destruct (interior_cpoints pp pi pn t); cbn in *; congruence).
    exists c_in, c_out. split; [now rewrite Hint, Heq|].
    eapply interior_on_line; [| | |exact Heq]; eauto. }
  intros j cj q Hj Hq.
  assert (Hjl : (j < l)%nat) by (apply lookup_lt_Some in Hj; lia).
  destruct (decide (j = 0)%nat) as [->|Hj0].
  - rewrite H0 in Hj. injection Hj as <-. cbn in Hq.
    destruct Hq as [Hq|Hq]; [discriminate|]. injection Hq as <-.
    apply midpoint_on_line; [eauto|].
    destruct (Hin 1%nat ltac:(lia) ltac:(lia)) as (c_in & c_out & Hc & Hi & _).
    rewrite Hc1 in Hc. injection Hc as ->. cbn in Hb1. now injection Hb1 as <-.
  - destruct (decide (j = l - 1)%nat) as [->|Hjn].
    + rewrite Hlast in Hj. injection Hj as <-. cbn in Hq.
      destruct Hq as [Hq|Hq]; [|discriminate]. injection Hq as <-.
      apply midpoint_on_line; [eauto|].
      destruct (Hin (l - 2)%nat ltac:(lia) ltac:(lia)) as (c_in & c_out & Hc & _ & Ho).
      rewrite Hc2 in Hc. injection Hc as ->. cbn in Ha2. now injection Ha2 as <-.
    + destruct (Hin j ltac:(lia) ltac:(lia)) as (c_in & c_out & Hc & Hi & Ho).
      rewrite Hj in Hc. injection Hc as ->. cbn in Hq.
      destruct Hq as [Hq|Hq]; now injection Hq as <-.
Qed.

(** X14. In exact arithmetic, points on a line are joined along that line:
    when every point is on one line and no interior point has coinciding
    neighbours, every control point and every end point of the operations
    issued is on that line, whatever the tension. *)
Theorem collinear_points_stay_on_line points (tension : R) :
  Forall (on_line o u) points ->
  (forall i pp pn,
     points !! i = Some pp -> points !! (i + 2)%nat = Some pn -> pp <> pn) ->
  Forall (cmd_on_line o u) (bezierCurveThrough points tension).1.
Proof.
  intros Hline _.
  assert (Hpt : forall k p, points !! k = Some p -> on_line o u p)
    by (intros k p Hk; exact (Forall_lookup_1 _ _ _ _ Hline Hk)).
  destruct (bezier_cases points tension)
    as [[-> _]|[(p & q & -> & ->)|(Hl & _)]].
  - constructor.
  - cbn [fst]. assert (Hp := Hpt 0%nat p eq_refl). assert (Hq := Hpt 1%nat q eq_refl).
    destruct p, q. repeat constructor; assumption.
  - destruct (bezier_path points tension Hl)
      as (cps & p0 & segs & Hrun & Hp0 & -> & Hlen & Hsegs).
    pose proof (control_points_on_line _ _ _ Hl Hline Hrun) as Hcps.
    cbn [fst app]. constructor; [exact I|].
    constructor; [specialize (Hpt _ _ Hp0); now destruct p0|].
    apply Forall_app. split; [|repeat constructor].
    apply Forall_lookup_2. intros i c Hc.
    assert (Hi : (i < length points - 1)%nat) by (apply lookup_lt_Some in Hc; lia).
    destruct (Hsegs i Hi)
      as (c' & Hc' & p & c0 & c1 & ca & cb & Hp & Hc0 & Ha & Hc1 & Hb & ->).
    rewrite Hc in Hc'. injection Hc' as ->.
    pose proof (Hcps _ _ _ Hc0 (or_intror Ha)) as Hca.
    pose proof (Hcps _ _ _ Hc1 (or_introl Hb)) as Hcb.
    pose proof (Hpt _ _ Hp) as Hpp.
    destruct ca, cb, p. cbn. auto.
Qed.

End Collinear.

(** ** A tension that is zero or not a number, in binary64 *)

Section FalsyTension.
Import F64.

(** X4. A tension of [+0], [-0] or [NaN] is replaced by 0.25: the call
    issues what it issues for 0.25, so a zero tension cannot be asked for. *)
Theorem falsy_tension_is_quarter (points : list (@point f64)) (s : bool) :
  bezierCurveThrough points (S754_zero s)
  = bezierCurveThrough points (lit 1 (-2))
  /\ bezierCurveThrough points nan = bezierCurveThrough points (lit 1 (-2)).
Proof. split; reflexivity. Qed.

End FalsyTension.

(** ** The frame loop: requests and operations *)

Section LoopFacts.
Context {num : Type} `{JSNumber num}.
Context (Math_sin Math_round : num -> num) (Math_PI : num).
Context (canvas_width canvas_height : num).

Local Notation "# z" := (num_of_Z z) (at level 1, z at level 0, only parsing).
Local Abbreviation tick :=
  (renderCurves Math_sin Math_round Math_PI canvas_width canvas_height).
Local Abbreviation on_frame :=
  (animation_frame Math_sin Math_round Math_PI canvas_width canvas_height).
Local Abbreviation run :=
  (frames Math_sin Math_round Math_PI canvas_width canvas_height).
Local Abbreviation start :=
  (mount Math_sin Math_round Math_PI canvas_width canvas_height).

Implicit Types (st : @host num) (timeStamp now : num) (stamps : list num).

Lemma on_frame_handles st now (n : handle) :
  lastFrame st = Some n -> requests st = [n] -> next_handle st = S n ->
  lastFrame (on_frame st now) = Some (S n)
  /\ requests (on_frame st now) = [S n]
  /\ next_handle (on_frame st now) = S (S n).
Proof.
  intros Hlast Hreq Hnext.
  rewrite (on_frame_armed _ _ _ _ _ st now) by (exists n; now split).
  rewrite tick_spec. cbn [lastFrame requests next_handle]. rewrite Hnext.
  repeat split.
Qed.

Lemma run_handles stamps st (n : handle) :
  lastFrame st = Some n -> requests st = [n] -> next_handle st = S n ->
  lastFrame (run st stamps) = Some (n + length stamps)
  /\ requests (run st stamps) = [n + length stamps]
  /\ next_handle (run st stamps) = S (n + length stamps).
Proof.
  revert st n. induction stamps as [|t stamps IH]; intros st n Hlast Hreq Hnext.
  - cbn [frames foldl length]. rewrite Nat.add_0_r. now repeat split.
  - destruct (on_frame_handles st t n Hlast Hreq Hnext) as (Hl & Hr & Hn).
    cbn [frames foldl length].
    replace (n + S (length stamps)) with (S n + length stamps) by lia.
    now apply IH.
Qed.

(** X7. While the component is mounted, frame requests never pile up: after
    the tick of the effect and after every frame exactly one request is
    pending, [lastFrame] holds its handle, and the next frame replaces it by
    a request with a new handle. *)
Theorem one_pending_request now stamps :
  let st := run (start now) stamps in
  exists id : handle,
    lastFrame st = Some id
    /\ requests st = [id]
    /\ forall t, exists id' : handle,
         lastFrame (on_frame st t) = Some id'
         /\ requests (on_frame st t) = [id']
         /\ id' <> id.
Proof.
  intros st.
  assert (Hs : lastFrame (start now) = Some 1 /\ requests (start now) = [1]
               /\ next_handle (start now) = 2).
  { unfold mount. rewrite tick_spec. repeat split. }
  destruct Hs as (Hl & Hr & Hn).
  destruct (run_handles stamps _ 1 Hl Hr Hn) as (Hl' & Hr' & Hn').
  exists (1 + length stamps). split; [exact Hl'|]. split; [exact Hr'|].
  intros t. destruct (on_frame_handles _ t _ Hl' Hr' Hn') as (Hl2 & Hr2 & _).
  exists (S (1 + length stamps)). split; [exact Hl2|]. split; [exact Hr2|]. lia.
Qed.

Lemma length_flat_map_const {A B} (g : A -> list B) (k : nat) (l : list A) :
  (forall x, length (g x) = k) -> length (flat_map g l) = k * length l.
Proof.
  intros Hk. induction l as [|x l IH]; [simpl; lia|].
  cbn [flat_map length]. rewrite length_app, Hk, IH. lia.
Qed.

Lemma curve_operations (k n : num) :
  length (bezierCurveThrough (curve_points k n) num_quarter).1 = 6
  /\ Forall (fun c => is_path_op c = true)
       (bezierCurveThrough (curve_points k n) num_quarter).1.
Proof.
  destruct (bezier_cases (curve_points k n) num_quarter)
    as [[_ Hl]|[(p & q & Hpq & _)|(_ & p0 & segs & -> & Hlen & Hops)]].
  - cbn in Hl. lia.
  - discriminate Hpq.
  - cbn [fst]. split.
    + rewrite !length_app, Hlen. reflexivity.
    + cbn [app]. repeat (constructor; [reflexivity|]).
      apply Forall_app. split; [exact Hops|]. repeat constructor.
Qed.

(** X8. A tick first clears the canvas, once, and then issues 490 further
    operations, each of them a path operation or a stroke style: 70 curves
    of one style and six path operations.  It never resets the context. *)
Theorem tick_operations st timeStamp :
  exists ops,
    surface (tick st timeStamp)
    = surface st ++ ClearRect #0 #0 canvas_width canvas_height :: ops
    /\ length ops = 490
    /\ Forall (fun c => is_path_op c = true
                        \/ exists r g b, c = SetStrokeStyle r g b) ops.
Proof.
  rewrite tick_spec, draw_frame_spec. cbn [surface fst].
  eexists. split; [reflexivity|]. split.
  - rewrite (length_flat_map_const _ 7); [reflexivity|].
    intros i. cbn [length]. now rewrite (proj1 (curve_operations _ _)).
  - apply Forall_flat_map, Forall_forall. intros i _.
    constructor; [right; unfold style_of; eauto|].
    eapply Forall_impl; [apply curve_operations|]. intros c Hc. now left.
Qed.

End LoopFacts.

(** ** The sway and the colors, in exact arithmetic *)

Section Motion.
Local Open Scope R_scope.

(** X9. The sway [k] repeats every 5000 time units: adding any whole number
    of periods to the elapsed time leaves it unchanged. *)
Theorem sway_periodic (elapsed : R) (n : nat) :
  sway sin PI (elapsed + 5000 * INR n) = sway sin PI elapsed.
Proof.
  unfold sway. cbn. f_equal.
  replace ((elapsed + 5000 * INR n) / 5000 * PI * 2)
    with (elapsed / 5000 * PI * 2 + 2 * INR n * PI) by field.
  apply sin_period.
Qed.

(** X10. The sway stays between -40 and 40, and reaches both: 40 a quarter
    of the way through a period, -40 three quarters of the way. *)
Theorem sway_bounded (elapsed : R) :
  -40 <= sway sin PI elapsed <= 40
  /\ sway sin PI 1250 = 40
  /\ sway sin PI 3750 = -40.
Proof.
  unfold sway. cbn. split; [|split].
  - pose proof (SIN_bound (elapsed / 5000 * PI * 2)). lra.
  - replace (1250 / 5000 * PI * 2) with (PI / 2) by field.
    rewrite sin_PI2. ring.
  - replace (3750 / 5000 * PI * 2) with (3 * (PI / 2)) by field.
    rewrite sin_3PI2. ring.
Qed.


Lemma R_round_between (lo hi : Z) (x : R) :
  IZR lo <= x <= IZR hi -> (lo <= Int_part (x + / 2) <= hi)%Z.
Proof.
  intros [Hlo Hhi]. destruct (base_Int_part (x + / 2)) as [Hle Hgt].
  split.
  - assert (Hz : (lo - 1 < Int_part (x + / 2))%Z).
    { apply lt_IZR. rewrite minus_IZR. lra. }
    lia.
  - assert (Hz : (Int_part (x + / 2) < hi + 1)%Z).
    { apply lt_IZR. rewrite plus_IZR. lra. }
    lia.
Qed.

(** X12. With [Math.round] rounding to the nearest integer, the stroke
    style of each of the 70 curves has whole channels within the two fixed
    colors: red from 38 to 238, green from 0 to 69, blue from 53 to 187, so
    every channel is a byte. *)
Theorem stroke_colors_in_range (i : nat) :
  (i < 70)%nat ->
  exists r g b : Z,
    style_of R_round (IZR (Z.of_nat i)) = SetStrokeStyle (IZR r) (IZR g) (IZR b)
    /\ (38 <= r <= 238)%Z /\ (0 <= g <= 69)%Z /\ (53 <= b <= 187)%Z.
Proof.
  intros Hi.
  assert (Hn : 0 <= IZR (Z.of_nat i) <= 69).
  { split; apply IZR_le; lia. }
  unfold style_of, R_round. cbn.
  do 3 eexists. split; [reflexivity|].
  split; [|split]; apply R_round_between; lra.
Qed.

End Motion.

(** ** Concrete runs *)

Section Examples.
Import F64.

(** The end-to-end scenario: four points, tension 0.25. *)
Example four_points_path :
  exists c1 c2 c3 c4 c5 c6 c7 c8 c9 c10 c11 c12,
    bezierCurveThrough
      [(of_Z 0, of_Z 0); (of_Z 10, of_Z 0); (of_Z 20, of_Z 10); (of_Z 30, of_Z 10)]
      (lit 1 (-2))
    = ([BeginPath; MoveTo (of_Z 0) (of_Z 0);
        BezierCurveTo c1 c2 c3 c4 (of_Z 10) (of_Z 0);
        BezierCurveTo c5 c6 c7 c8 (of_Z 20) (of_Z 10);
        BezierCurveTo c9 c10 c11 c12 (of_Z 30) (of_Z 10);
        Stroke], Returned tt).
Proof. do 12 eexists. vm_compute. reflexivity. Qed.


(** C1, as stated, fails in binary64 although the neighbours differ.
    - Overflow to infinity: for [(-2^511, 0), (0, 0), (2^511, 0)] the squared
      difference overflows, the distance is infinite, the tangent is
      [(0, 0)] instead of [(1, 0)], and both control points are the point
      itself.
    - Overflow of the difference: for [(-2^1023, 0), (0, 0), (2^1023, 0)] the
      tangent is [(NaN, 0)] and both control points are [(NaN, NaN)], which
      lie on no line.
    - Rounding: for the neighbours [(0, 0)] and [(20, 10)] the computed
      tangent [(dx, dy)] has [dx * dx + dy * dy = 0.9999999999999999]. *)
Lemma tangent_not_normalized :
  (let pp : @point f64 := (lit (-1) 511, of_Z 0) in
   let pn : @point f64 := (lit 1 511, of_Z 0) in
   pp <> pn
   /\ h (sub pn.1 pp.1) (sub pn.2 pp.2) = S754_infinity false
   /\ tangent pp pn = (S754_zero false, S754_zero false)
   /\ exists cps,
        control_points [pp; (of_Z 0, of_Z 0); pn] (default_tension (lit 1 (-2)))
        = ([], Returned cps)
        /\ cps !! 1 = Some (Some {| cp := Some (of_Z 0, of_Z 0);
                                    cn := Some (of_Z 0, of_Z 0) |}))
  /\ (let pp : @point f64 := (lit (-1) 1023, of_Z 0) in
      let pn : @point f64 := (lit 1 1023, of_Z 0) in
      pp <> pn
      /\ tangent pp pn = (nan, S754_zero false)
      /\ exists cps,
           control_points [pp; (of_Z 0, of_Z 0); pn] (default_tension (lit 1 (-2)))
           = ([], Returned cps)
           /\ cps !! 1 = Some (Some {| cp := Some (nan, nan);
                                       cn := Some (nan, nan) |}))
  /\ (let d := tangent (num := f64) (of_Z 0, of_Z 0) (of_Z 20, of_Z 10) in
      add (mul d.1 d.1) (mul d.2 d.2) = lit 9007199254740991 (-53)
      /\ add (mul d.1 d.1) (mul d.2 d.2) <> of_Z 1).
Proof.
  split; [|split].
  - split; [vm_compute; discriminate|].
    split; [vm_compute; reflexivity|]. split; [vm_compute; reflexivity|].
    eexists. split; vm_compute; reflexivity.
  - split; [vm_compute; discriminate|]. split; [vm_compute; reflexivity|].
    eexists. split; vm_compute; reflexivity.
  - split; [vm_compute; reflexivity|vm_compute; discriminate].
Qed.

(** C7, as stated, fails on the horizontal axis: the interior points of
    curve 0 and of curve 1 have the same abscissa (270 and 540 for
    [k = 40]); only their ordinates depend on the curve index. *)
Lemma interior_points_share_abscissa :
  let k := of_Z 40 in
  exists p1 p2 q1 q2 : @point f64,
    curve_points k (of_Z 0) !! 1 = Some p1
    /\ curve_points k (of_Z 0) !! 2 = Some p2
    /\ curve_points k (of_Z 1) !! 1 = Some q1
    /\ curve_points k (of_Z 1) !! 2 = Some q2
    /\ p1.1 = q1.1 /\ p2.1 = q2.1
    /\ p1.1 = of_Z 270 /\ p2.1 = of_Z 540
    /\ p1.2 <> q1.2 /\ p2.2 <> q2.2.
Proof.
  do 4 eexists. repeat (split; [vm_compute; reflexivity|]).
  split; vm_compute; discriminate.
Qed.

(** C8, as stated, fails in its last part: the cleanup calls
    [context.reset()] after cancelling the request, which changes the
    context. *)
Lemma cleanup_resets_context :
  let st := mount sin R_round PI 800%R 600%R 0%R in
  surface (cleanup st) = surface st ++ [Reset]
  /\ surface (cleanup st) <> surface st.
Proof.
  intros st. assert (Hs : surface (cleanup st) = surface st ++ [Reset]) by reflexivity.
  split; [exact Hs|]. rewrite Hs. intros Heq.
  apply (f_equal length) in Heq. rewrite length_app in Heq. cbn in Heq. lia.
Qed.

(** *** Instances of the general statements *)

Lemma curve_commands_witness :
  exists segs,
    bezierCurveThrough
      [(of_Z 0, of_Z 0); (of_Z 10, of_Z 0); (of_Z 20, of_Z 10); (of_Z 30, of_Z 10)]
      (lit 1 (-2))
    = ([BeginPath; MoveTo (of_Z 0) (of_Z 0)] ++ segs ++ [Stroke], Returned tt)
    /\ length segs = 3.
Proof.
  destruct (curve_commands
              [(of_Z 0, of_Z 0); (of_Z 10, of_Z 0); (of_Z 20, of_Z 10); (of_Z 30, of_Z 10)]
              (lit 1 (-2)))
    as (cps & p0 & segs & _ & Hp0 & Hcall & Hlen & _).
  - simpl. lia.
  - injection Hp0 as <-. exists segs. split; [exact Hcall|exact Hlen].
Defined.

Lemma endpoint_control_points_witness :
  exists cps (b : @point f64),
    control_points
      [(of_Z 0, of_Z 0); (of_Z 10, of_Z 0); (of_Z 20, of_Z 10); (of_Z 30, of_Z 10)]
      (default_tension (lit 1 (-2)))
    = ([], Returned cps)
    /\ cps !! 0 = Some (Some {| cp := None; cn := Some (midpoint (of_Z 0, of_Z 0) b) |}).
Proof.
  destruct (endpoint_control_points
              [(of_Z 0, of_Z 0); (of_Z 10, of_Z 0); (of_Z 20, of_Z 10); (of_Z 30, of_Z 10)]
              (lit 1 (-2)))
    as (cps & p0 & pl & c1 & c2 & b & a & Hrun & Hp0 & _ & _ & _ & _ & _ & H0 & _).
  - simpl. lia.
  - injection Hp0 as <-. exists cps, b. split; [exact Hrun|exact H0].
Defined.

Lemma tension_irrelevant_below_three_witness :
  bezierCurveThrough [(of_Z 0, of_Z 0); (of_Z 10, of_Z 0)] (lit 1 (-2))
  = bezierCurveThrough [(of_Z 0, of_Z 0); (of_Z 10, of_Z 0)] (of_Z 3).
Proof.
  apply (tension_irrelevant_below_three
           [(of_Z 0, of_Z 0); (of_Z 10, of_Z 0)] (lit 1 (-2)) (of_Z 3)).
  simpl. lia.
Defined.

Lemma coincident_neighbours_nan_witness :
  tangent (num := f64) (of_Z 0, of_Z 0) (of_Z 0, of_Z 0) = (nan, nan).
Proof.
  apply (coincident_neighbours_nan
           [(of_Z 0, of_Z 0); (of_Z 10, of_Z 0); (of_Z 0, of_Z 0)]
           (lit 1 (-2)) 1 (of_Z 0, of_Z 0) (of_Z 10, of_Z 0) (of_Z 0, of_Z 0)).
  - lia.
  - reflexivity.
  - reflexivity.
  - reflexivity.
  - split; left; reflexivity.
Defined.

Lemma interior_control_points_witness :
  (exists cps,
     control_points
       [(of_Z 0, of_Z 0); (of_Z 10, of_Z 0); (of_Z 20, of_Z 10)] (lit 1 (-2))
     = ([], Returned cps)
     /\ cps !! 1
        = Some (Some {| cp := Some (lit 8741410340865452 (-50),
                                    lit (-5035177455121576) (-52));
                        cn := Some (lit 7409703595710165 (-49),
                                    lit 7120816245988179 (-52)) |}))
  /\ norm (normalized (vec (0, 0) (20, 10)))%R = 1%R.
Proof.
  split.
  - destruct (proj1 interior_control_points f64 f64_number
                [(of_Z 0, of_Z 0); (of_Z 10, of_Z 0); (of_Z 20, of_Z 10)]
                (lit 1 (-2)) 1
                (of_Z 0, of_Z 0) (of_Z 10, of_Z 0) (of_Z 20, of_Z 10))
      as (_ & cps & p0 & segs & Hrun & Hcps & _).
    + lia.
    + reflexivity.
    + reflexivity.
    + reflexivity.
    + exists cps. split; [exact Hrun|exact Hcps].
  - apply (proj2 interior_control_points [(0, 0); (10, 0); (20, 10)]%R (/ 4)%R 1
             (0, 0)%R (10, 0)%R (20, 10)%R).
    + lia.
    + reflexivity.
    + reflexivity.
    + reflexivity.
    + intros Heq. injection Heq as H1 H2. lra.
Defined.


Lemma elapsed_monotone_witness :
  elapsed_run sin R_round PI 800%R 600%R 0%R [16; 33]%R
  = [0 - 0; 16 - 0; 33 - 0]%R.
Proof.
  apply (elapsed_monotone sin R_round PI 800%R 600%R 0%R [16; 33]%R).
  repeat constructor; lra.
Defined.

Lemma bezier_similarity_witness :
  bezierCurveThrough
    (similarity 0 1 (5, 7)%R <$> [(0, 0); (10, 0); (20, 10)]%R) (/ 4)%R
  = (map_cmd (similarity 0 1 (5, 7)%R)
       <$> (bezierCurveThrough [(0, 0); (10, 0); (20, 10)]%R (/ 4)%R).1,
     Returned tt).
Proof.
  apply (bezier_similarity 0 1 (5, 7)%R). lra.
Defined.

Lemma control_point_distance_witness :
  exists cps (c_in c_out : @point R),
    control_points [(0, 0); (10, 0); (20, 10)]%R (default_tension (/ 4)%R)
    = ([], Returned cps)
    /\ cps !! 1 = Some (Some {| cp := Some c_in; cn := Some c_out |})
    /\ dist (10, 0)%R c_in
       = (Rabs (default_tension (/ 4)) * dist (10, 0) (0, 0))%R
    /\ dist (10, 0)%R c_out
       = (Rabs (default_tension (/ 4)) * dist (10, 0) (20, 10))%R.
Proof.
  apply (control_point_distance [(0, 0); (10, 0); (20, 10)]%R (/ 4)%R 1
           (0, 0)%R (10, 0)%R (20, 10)%R).
  - lia.
  - reflexivity.
  - reflexivity.
  - reflexivity.
  - intros Heq. injection Heq as H1 H2. lra.
Defined.

Lemma bezier_reverse_witness :
  exists segs',
    bezierCurveThrough (reverse [(0, 0); (10, 0); (20, 10)]%R) (/ 4)%R
    = ([BeginPath; MoveTo 20%R 10%R] ++ segs' ++ [Stroke], Returned tt)
    /\ length segs' = 2.
Proof.
  destruct (bezier_reverse [(0, 0); (10, 0); (20, 10)]%R (/ 4)%R)
    as (p0 & pl & segs & segs' & _ & Hpl & _ & Hcall & _ & Hlen & _).
  - simpl. lia.
  - injection Hpl as <-. exists segs'. split; [exact Hcall|exact Hlen].
Defined.

Lemma collinear_points_stay_on_line_witness :
  Forall (cmd_on_line (0, 0)%R (1, 0)%R)
    (bezierCurveThrough [(0, 0); (10, 0); (30, 0)]%R (/ 4)%R).1.
Proof.
  apply (collinear_points_stay_on_line (0, 0)%R (1, 0)%R).
  - repeat constructor.
    + exists 0%R. unfold along. simpl. f_equal; lra.
    + exists 10%R. unfold along. simpl. f_equal; lra.
    + exists 30%R. unfold along. simpl. f_equal; lra.
  - intros [|[|[|i]]] pp pn Hpp Hpn; try discriminate Hpn.
    injection Hpp as <-. injection Hpn as <-.
    intros Heq. injection Heq as H1. lra.
Defined.

Lemma stroke_colors_in_range_witness :
  exists r g b : Z,
    style_of R_round (IZR (Z.of_nat 35)) = SetStrokeStyle (IZR r) (IZR g) (IZR b)
    /\ (38 <= r <= 238)%Z /\ (0 <= g <= 69)%Z /\ (53 <= b <= 187)%Z.
Proof.
  apply (stroke_colors_in_range 35). lia.
Defined.

End Examples.

